(** * flux.modprobe: task database, solver, dependency builder, executor
    and removal planner of src/bindings/python/flux/modprobe.py,
    as a shallow embedding over stdpp. *)

From stdpp Require Import base gmap list strings.

Open Scope string_scope.
Open Scope list_scope.

(* ------------------------------------------------------------------ *)
(** ** Errors and the exception monad *)

(** The exceptions the module raises.  [NotFound] is the ValueError of
    [TaskDB.get] / [TaskDB.set_alternative]; [NotLoaded] and [InUse] the
    ValueErrors of [Modprobe.solve_modules_remove]; [KeyError] a lookup
    of a missing key in a plain dict; [RecursionLimit] the RecursionError
    of CPython once the recursion depth is exhausted; [CycleError] the one
    of [TopologicalSorter.prepare]; [SorterDoneError] the ValueError of
    [TopologicalSorter.done] on a node not handed out or already done;
    [Uncaught] a BaseException that is not an Exception (SystemExit,
    KeyboardInterrupt) re-raised by [future.result()] in
    [Modprobe.run]; [OutOfFuel] is never raised by Python: it marks a
    loop of the model that ran past the bound given to it. *)
Inductive error :=
  | NotFound (what : string)
  | NotLoaded (what : string)
  | InUse (what : string)
  | KeyError (key : string)
  | RecursionLimit
  | CycleError
  | SorterDoneError (node : string)
  | Uncaught (msg : string)
  | OutOfFuel.

Inductive res (A : Type) : Type :=
  | Ok (a : A)
  | Err (e : error).
Arguments Ok {A} a.
Arguments Err {A} e.

Global Instance res_ret : MRet res := @Ok.
Global Instance res_bind : MBind res :=
  λ A B f m, match m with Ok a => f a | Err e => Err e end.

(** A Python [dict] keeps its keys in insertion order; assignment to a
    present key keeps its position. *)
Definition dict (K V : Type) := list (K * V).

Section Dict.
Context {K V : Type} `{EqDecision K}.

Fixpoint dict_get (k : K) (d : dict K V) : option V :=
  match d with
  | [] => None
  | (k', v) :: d' => if decide (k = k') then Some v else dict_get k d'
  end.

Fixpoint dict_set (k : K) (v : V) (d : dict K V) : dict K V :=
  match d with
  | [] => [(k, v)]
  | (k', v') :: d' =>
      if decide (k = k') then (k', v) :: d' else (k', v') :: dict_set k v d'
  end.

Definition dict_keys (d : dict K V) : list K := map fst d.
End Dict.

(* ------------------------------------------------------------------ *)
(** ** Rank predicates ([RankConditional], [RankIDset]) *)

(** The parsed form of a [ranks] argument: ["all"], an RFC 22 idset
    (kept as the list of its members), [">N"] or ["<N"]. *)
Inductive RankCond :=
  | RankAll
  | RankIDs (ids : list nat)
  | RankGt (r : nat)
  | RankLt (r : nat).

Definition rank_test (c : RankCond) (rank : nat) : bool :=
  match c with
  | RankAll => true
  | RankIDs ids => bool_decide (rank ∈ ids)
  | RankGt r => bool_decide (r < rank)
  | RankLt r => bool_decide (rank < r)
  end.

(* ------------------------------------------------------------------ *)
(** ** Tasks *)

(** [Task]: the metadata fields of [Task.VALID_ARGS].  The body
    ([CodeTask.func], [Module.load], [Module.remove]) is not part of the
    record; the executor below treats its outcome as an input. *)
Record Task := mkTask {
  name : string;
  provides : list string;
  requires : list string;
  needs : list string;
  before : list string;
  after : list string;
  ranks : RankCond;
  requires_attrs : list string;
  requires_config : list string;
  disabled : bool
}.

(** A task with every optional argument at its default. *)
Definition task0 (n : string) : Task :=
  mkTask n [] [] [] [] [] RankAll [] [] false.

Definition set_disabled (t : Task) : Task :=
  mkTask (name t) (provides t) (requires t) (needs t) (before t) (after t)
    (ranks t) (requires_attrs t) (requires_config t) true.

(** The broker state [Task.enabled] reads: the local rank and the
    truthiness of [conf_get(key)] and [attr_get(attr)]. *)
Record Context := mkContext {
  ctx_rank : nat;
  ctx_conf : string → bool;
  ctx_attr : string → bool
}.

Definition enabled (t : Task) (c : Context) : bool :=
  if disabled t || negb (rank_test (ranks t) (ctx_rank c)) then false
  else forallb (ctx_conf c) (requires_config t) && forallb (ctx_attr c) (requires_attrs t).

(* ------------------------------------------------------------------ *)
(** ** TaskDB *)

(** [TaskDB.tasks] is a [defaultdict(list)] from service name to the list
    of task objects registered under it.  Task objects are shared between
    the keys of their name and of their [provides], and [disable] mutates
    them in place, so the objects live in a heap indexed by object id.
    A missing key and an empty list behave alike for every operation. *)
Record TaskDB := mkDB {
  tasks : gmap string (list nat);
  heap : gmap nat Task
}.

Definition append_at (k : string) (id : nat) (m : gmap string (list nat)) :=
  <[k := default [] (m !! k) ++ [id]]> m.

(** [TaskDB.add]: append the object under each [provides] alias, then
    under its own name. *)
Definition taskdb_add (id : nat) (db : TaskDB) : TaskDB :=
  match heap db !! id with
  | Some t =>
      mkDB (append_at (name t) id (foldl (λ m p, append_at p id m) (tasks db) (provides t)))
        (heap db)
  | None => db
  end.

(** [TaskDB.get]: the tail of the list. *)
Definition get_id (db : TaskDB) (service : string) : res nat :=
  match last (default [] (tasks db !! service)) with
  | Some id => Ok id
  | None => Err (NotFound service)
  end.

Definition get (db : TaskDB) (service : string) : res Task :=
  id ← get_id db service;
  match heap db !! id with
  | Some t => Ok t
  | None => Err (NotFound service)
  end.

Definition obj_named (db : TaskDB) (n : string) (id : nat) : Prop :=
  option_map name (heap db !! id) = Some n.
Global Instance obj_named_dec db n id : Decision (obj_named db n id).
Proof. unfold obj_named. apply _. Defined.

(** [TaskDB.disable]: mark every object under [service] disabled. *)
Definition disable (db : TaskDB) (service : string) : TaskDB :=
  mkDB (tasks db)
    (foldl (λ h id, alter set_disabled id h) (heap db) (default [] (tasks db !! service))).

(** [TaskDB.set_alternative]: [None] is Python's [None]. *)
Definition set_alternative (db : TaskDB) (service : string) (nm : option string) : res TaskDB :=
  match nm with
  | None => Ok (disable db service)
  | Some n =>
      let lst := default [] (tasks db !! service) in
      match list_find (obj_named db n) lst with
      | None => Err (NotFound n)
      | Some (index, id) => Ok (mkDB (<[service := delete index lst ++ [id]]> (tasks db)) (heap db))
      end
  end.

(** [TaskDB.any_provides]: the list comprehension resolves every name
    before the loop tests anything. *)
Definition provides_name (n : string) (t : Task) : bool :=
  negb (disabled t) && bool_decide (n ∈ name t :: provides t).

Definition any_provides (db : TaskDB) (ts : list string) (n : string) : res bool :=
  l ← mapM (get db) ts;
  Ok (existsb (provides_name n) l).

(* ------------------------------------------------------------------ *)
(** ** Modprobe: registration, solver, needs *)

(** A fresh object id for a new Python object. *)
Definition next_id (db : TaskDB) : nat :=
  map_fold (λ k _ acc, Nat.max (S k) acc) 0 (heap db).

(** [Modprobe.add_task(task)] with a new [task] object. *)
Definition add_task (t : Task) (db : TaskDB) : TaskDB :=
  let id := next_id db in
  taskdb_add id (mkDB (tasks db) (<[id := t]> (heap db))).

(** A TaskDB built by registering [ts] in order. *)
Definition db_of (ts : list Task) : TaskDB :=
  foldl (λ db t, add_task t db) (mkDB ∅ ∅) ts.

(** [Modprobe.solve_tasks_recursive].  [visited] and [skipped] are the
    sets shared by all recursive calls, threaded through as state; the
    call returns [(result, visited, skipped)].  [depth] is the number of
    Python frames left before CPython raises RecursionError. *)
Fixpoint solve_tasks_recursive (depth : nat) (ctx : Context) (db : TaskDB)
    (ts : list string) (visited skipped : gset string)
    : res (gset string * gset string * gset string) :=
  match depth with
  | 0 => Err RecursionLimit
  | S d =>
      let fix loop (to_visit : list string) (result visited skipped : gset string) :=
        match to_visit with
        | [] => Ok (result, visited, skipped)
        | n :: rest =>
            t ← get db n;
            let '(result, skipped) :=
              if enabled t ctx then ({[name t]} ∪ result, skipped)
              else (result, {[name t]} ∪ skipped) in
            let visited := {[name t]} ∪ visited in
            match requires t with
            | [] => loop rest result visited skipped
            | _ :: _ =>
                '(rset, visited, skipped) ←
                  solve_tasks_recursive d ctx db (requires t) visited skipped;
                loop rest (result ∪ rset) visited skipped
            end
        end in
      loop (filter (λ x, x ∉ visited) ts) ∅ visited skipped
  end.

(** CPython's default recursion limit. *)
Definition recursion_limit : nat := 1000.

(** [Modprobe.solve] (timing bookkeeping omitted). *)
Definition solve (ctx : Context) (db : TaskDB) (ts : list string) : res (gset string) :=
  '(result, _, _) ← solve_tasks_recursive recursion_limit ctx db ts ∅ ∅;
  Ok result.

(** Python's [list.remove]: drop the first occurrence. *)
Fixpoint list_remove (x : string) (l : list string) : list string :=
  match l with
  | [] => []
  | y :: l' => if decide (x = y) then l' else y :: list_remove x l'
  end.

(** The number of occurrences of [x] in [l]. *)
Definition cnt (l : list string) (x : string) : nat := count_occ (λ a b : string, decide (a = b)) l x.

(** The inner loop of [process_needs] over [task.needs], on the current
    list [cur]. *)
Fixpoint needs_loop (db : TaskDB) (n : string) (ns : list string) (cur : list string)
    : res (list string) :=
  match ns with
  | [] => Ok cur
  | need :: ns' =>
      any_provides db cur need ≫= λ b : bool,
      if b then needs_loop db n ns' cur
      else needs_loop db n ns' (if decide (n ∈ cur) then list_remove n cur else cur)
  end.

(** [Modprobe.process_needs]: one pass over a copy of [tasks], each
    test against the list as it stands, removals in place. *)
Fixpoint process_needs_loop (db : TaskDB) (copy cur : list string) : res (list string) :=
  match copy with
  | [] => Ok cur
  | n :: rest =>
      t ← get db n;
      cur' ← needs_loop db n (needs t) cur;
      process_needs_loop db rest cur'
  end.

Definition process_needs (db : TaskDB) (ts : list string) : res (list string) :=
  process_needs_loop db ts ts.

(** The orchestrator state the [active_tasks] property reads and writes. *)
Record Modprobe := mkModprobe {
  taskdb : TaskDB;
  active : list string;   (* Modprobe._active_tasks *)
  context : Context
}.

Fixpoint filter_enabled (db : TaskDB) (ctx : Context) (l : list string) : res (list string) :=
  match l with
  | [] => Ok []
  | n :: l' =>
      t ← get db n;
      r ← filter_enabled db ctx l';
      Ok (if enabled t ctx then n :: r else r)
  end.

(** The [active_tasks] property: [process_needs] returns the very list
    object [_active_tasks] it pruned in place, so the pruning persists. *)
Definition active_tasks (mp : Modprobe) : res (list string * Modprobe) :=
  l ← process_needs (taskdb mp) (active mp);
  r ← filter_enabled (taskdb mp) (context mp) l;
  Ok (r, mkModprobe (taskdb mp) l (context mp)).

(** [add_active_task]: register a new task object and append its name. *)
Definition add_active_task (t : Task) (mp : Modprobe) : Modprobe :=
  mkModprobe (add_task t (taskdb mp)) (active mp ++ [name t]) (context mp).

(** Calls a caller makes on the orchestrator between two reads of
    [active_tasks]: registering tasks (plain or active), reading the
    property, selecting an alternative. *)
Inductive Op :=
  | OpAddTask (t : Task)
  | OpAddActiveTask (t : Task)
  | OpReadActive
  | OpSetAlternative (service : string) (nm : option string).

Definition exec_op (mp : Modprobe) (op : Op) : res (Modprobe * option (list string)) :=
  match op with
  | OpAddTask t => Ok (mkModprobe (add_task t (taskdb mp)) (active mp) (context mp), None)
  | OpAddActiveTask t => Ok (add_active_task t mp, None)
  | OpReadActive => '(r, mp') ← active_tasks mp; Ok (mp', Some r)
  | OpSetAlternative svc nm =>
      db ← set_alternative (taskdb mp) svc nm; Ok (mkModprobe db (active mp) (context mp), None)
  end.

(** Run a sequence of calls; collect what each read returned. *)
Fixpoint run_ops (mp : Modprobe) (ops : list Op) : res (Modprobe * list (list string)) :=
  match ops with
  | [] => Ok (mp, [])
  | op :: ops' =>
      '(mp1, o) ← exec_op mp op;
      '(mp2, outs) ← run_ops mp1 ops';
      Ok (mp2, match o with Some r => r :: outs | None => outs end)
  end.

(* ------------------------------------------------------------------ *)
(** ** Dependency builder ([get_deps], [process_before]) *)

(** [self.get_task(x).name] *)
Definition get_name (db : TaskDB) (x : string) : res string :=
  t ← get db x; Ok (name t).

(** [deps[k].append(v)] on a plain dict. *)
Definition dict_append (k v : string) (d : dict string (list string))
    : res (dict string (list string)) :=
  match dict_get k d with
  | Some l => Ok (dict_set k (l ++ [v]) d)
  | None => Err (KeyError k)
  end.

Fixpoint foldM {A B : Type} (f : B → A → res B) (acc : B) (l : list A) : res B :=
  match l with
  | [] => Ok acc
  | x :: l' => f acc x ≫= λ acc', foldM f acc' l'
  end.

(** The first loop of [get_deps]: the [after] edges. *)
Definition deps_after (db : TaskDB) (ts : list string) : res (dict string (list string)) :=
  foldM (λ deps nm,
      t ← get db nm;
      if decide ("*" ∈ after t) then
        l ← mapM (get_name db) (filter (λ x, x ≠ name t) ts);
        Ok (dict_set (name t) l deps)
      else
        after_tasks ← mapM (get_name db) (after t);
        Ok (dict_set (name t) (filter (λ x, x ∈ ts) after_tasks) deps))
    [] ts.

(** [deps_add_all(name)] inside [process_before]. *)
Definition deps_add_all (db : TaskDB) (nm : string) (deps : dict string (list string))
    : res (dict string (list string)) :=
  ks ← mapM (get db) (dict_keys deps);
  foldM (λ deps t, if decide ("*" ∈ before t) then Ok deps else dict_append (name t) nm deps)
    deps ks.

(** [Modprobe.process_before]. *)
Definition process_before (db : TaskDB) (ts : list string) (deps : dict string (list string))
    : res (dict string (list string)) :=
  foldM (λ deps nm,
      t ← get db nm;
      foldM (λ deps succ,
          if decide (succ = "*") then deps_add_all db (name t) deps
          else
            s ← get_name db succ;
            if decide (s ∈ dict_keys deps) then dict_append s (name t) deps else Ok deps)
        deps (before t))
    deps ts.

(** [Modprobe.get_deps] (timing bookkeeping omitted). *)
Definition get_deps (db : TaskDB) (ts : list string) : res (dict string (list string)) :=
  deps ← deps_after db ts; process_before db ts deps.

(* ------------------------------------------------------------------ *)
(** ** Executor ([Modprobe.run] over [TopologicalSorter]) *)

Section Graph.
Variable deps : dict string (list string).

(** The predecessors of a node, and the nodes of the sorter: every key
    and every predecessor ([TopologicalSorter.add] registers both). *)
Definition preds (x : string) : list string := default [] (dict_get x deps).

Definition nodes : list string := remove_dups (dict_keys deps ++ concat (map snd deps)).

(** [prepare] raises CycleError unless the graph is acyclic, i.e. has
    a topological order: every node listed, each after its
    predecessors. *)
Definition topo_order (ord : list string) : Prop :=
  (∀ x, x ∈ nodes → x ∈ ord) ∧
  (∀ i x p, ord !! i = Some x → p ∈ preds x → ∃ j, j < i ∧ ord !! j = Some p).

Definition acyclic : Prop := ∃ ord, topo_order ord.
End Graph.

Inductive pc := PInit | PTop | PWait | PDone | PFail (e : error).

(** The outcome of a task body, as [future.result()] reports it: it
    returns, raises an Exception whose [str] is the message, or raises a
    BaseException that is not an Exception (SystemExit,
    KeyboardInterrupt); the pool's worker stores either kind on the
    future. *)
Inductive outcome := Success | Failure (msg : string) | Escape (msg : string).

(** [except Exception] catches the outcome. *)
Definition caught (o : outcome) : bool :=
  match o with Escape _ => false | _ => true end.

(** The state of [Modprobe.run]: the sorter ([passed] = handed out by
    [get_ready], [finished] = marked [done]), the executor's [started]
    and [futures] (by task name), the [starttime]/[endtime] fields the
    workers write, the outcomes of completed futures, the clock read by
    [time.time()], [self.exitcode] and the lines written to stderr. *)
Record ExecState := mkES {
  es_pc : pc;
  now : nat;
  passed : list string;
  finished : list string;
  started : list string;
  futures : list string;
  starttime : gmap string nat;
  endtime : gmap string nat;
  result : gmap string outcome;
  exitcode : nat;
  stderr : list (string * string)
}.

Definition init_state (exitcode0 : nat) : ExecState :=
  mkES PInit 0 [] [] [] [] ∅ ∅ ∅ exitcode0 [].

Definition set_pc (p : pc) (st : ExecState) : ExecState :=
  mkES p (now st) (passed st) (finished st) (started st) (futures st)
    (starttime st) (endtime st) (result st) (exitcode st) (stderr st).

Section Run.
Variable db : TaskDB.
Variable deps : dict string (list string).

(** [sorter.get_ready()]: nodes not handed out whose predecessors are
    all done. *)
Definition get_ready (st : ExecState) : list string :=
  filter (λ x, (x ∉ passed st) ∧ Forall (λ p, p ∈ finished st) (preds deps x)) (nodes deps).

(** [is_active]: [self._nfinished < self._npassedout or bool(self._ready_nodes)]. *)
Definition is_active (st : ExecState) : bool :=
  bool_decide (length (finished st) < length (passed st)) || bool_decide (get_ready st ≠ []).

(** [executor.submit(task.runtask, ...)] unless already started. *)
Definition submit (st : ExecState) (n : string) : ExecState :=
  if decide (n ∈ started st) then st
  else mkES (es_pc st) (now st) (passed st) (finished st) (started st ++ [n])
         (futures st ++ [n]) (starttime st) (endtime st) (result st) (exitcode st) (stderr st).

(** One pass of the [while sorter.is_active()] loop up to the wait. *)
Definition main_top (st : ExecState) : ExecState :=
  if is_active st then
    let ready := get_ready st in
    let st1 := mkES PWait (now st) (passed st ++ ready) (finished st) (started st)
                 (futures st) (starttime st) (endtime st) (result st) (exitcode st) (stderr st) in
    match mapM (get_name db) ready with
    | Err e => set_pc (PFail e) st1
    | Ok names => foldl submit st1 names
    end
  else set_pc PDone st.

(** [concurrent.futures.wait(..., FIRST_COMPLETED)] returns once one
    future is complete, or at once when there is none. *)
Definition wait_returns (st : ExecState) : Prop :=
  futures st = [] ∨ ∃ f, f ∈ futures st ∧ is_Some (result st !! f).

(** The body of [for future in done]: [future.result()] under
    [try ... except Exception], then [sorter.done(task.name)] and
    [del futures[future]].  A BaseException outside Exception, or the
    ValueError of [done], leaves [run()]; the rest of the loop is then
    skipped. *)
Definition collect (st : ExecState) (f : string) : ExecState :=
  match es_pc st with
  | PFail _ => st
  | _ =>
    match result st !! f with
    | Some (Escape m) => set_pc (PFail (Uncaught m)) st
    | r =>
      let '(code, err) :=
        match r with
        | Some (Failure m) => (1, stderr st ++ [(f, m)])
        | _ => (exitcode st, stderr st)
        end in
      if decide (f ∈ passed st ∧ f ∉ finished st) then
        mkES (es_pc st) (now st) (passed st) (finished st ++ [f]) (started st)
          (list_remove f (futures st)) (starttime st) (endtime st) (result st) code err
      else
        mkES (PFail (SorterDoneError f)) (now st) (passed st) (finished st) (started st)
          (futures st) (starttime st) (endtime st) (result st) code err
    end
  end.

Definition main_collect (st : ExecState) : ExecState :=
  let done := filter (λ f, is_Some (result st !! f)) (futures st) in
  let st' := foldl collect st done in
  match es_pc st' with
  | PFail _ => st'
  | _ => set_pc PTop st'
  end.

(** [Task.runtask] on a worker thread: [starttime = time.time()] ...
    [finally: endtime = time.time()]. *)
Definition worker_start (f : string) (st : ExecState) : ExecState :=
  mkES (es_pc st) (now st) (passed st) (finished st) (started st) (futures st)
    (<[f := now st]> (starttime st)) (endtime st) (result st) (exitcode st) (stderr st).

Definition worker_end (f : string) (o : outcome) (st : ExecState) : ExecState :=
  mkES (es_pc st) (now st) (passed st) (finished st) (started st) (futures st)
    (starttime st) (<[f := now st]> (endtime st)) (<[f := o]> (result st))
    (exitcode st) (stderr st).

(** The wall clock moves forward. *)
Definition tick (k : nat) (st : ExecState) : ExecState :=
  mkES (es_pc st) (now st + k) (passed st) (finished st) (started st) (futures st)
    (starttime st) (endtime st) (result st) (exitcode st) (stderr st).

(** Interleavings of the main thread and the pool's workers. *)
Inductive step : ExecState → ExecState → Prop :=
  | step_prepare st :
      es_pc st = PInit → acyclic deps → step st (set_pc PTop st)
  | step_cycle st :
      es_pc st = PInit → ¬ acyclic deps → step st (set_pc (PFail CycleError) st)
  | step_top st :
      es_pc st = PTop → step st (main_top st)
  | step_collect st :
      es_pc st = PWait → wait_returns st → step st (main_collect st)
  | step_start st f :
      f ∈ started st → starttime st !! f = None → step st (worker_start f st)
  | step_end st f o :
      is_Some (starttime st !! f) → endtime st !! f = None → step st (worker_end f o st)
  | step_tick st k :
      step st (tick k st).

Definition reachable (exitcode0 : nat) (st : ExecState) : Prop :=
  rtc step (init_state exitcode0) st.
End Run.

(** The invariant of [Modprobe.run] the executor properties rest on,
    for a run that started with [self.exitcode = exitcode0]. *)
Record run_inv (deps : dict string (list string)) (exitcode0 : nat) (st : ExecState) : Prop := {
  inv_fail : ∀ e, es_pc st = PFail e →
    (e = CycleError ∧ ¬ acyclic deps) ∨ (∃ x m, e = Uncaught m ∧ result st !! x = Some (Escape m));
  inv_acyclic : es_pc st = PTop ∨ es_pc st = PWait ∨ es_pc st = PDone → acyclic deps;
  inv_done : es_pc st = PDone → is_active deps st = false;
  inv_passed_nodup : NoDup (passed st);
  inv_passed_nodes : ∀ x, x ∈ passed st → x ∈ nodes deps;
  inv_finished_nodup : NoDup (finished st);
  inv_finished_passed : ∀ x, x ∈ finished st → x ∈ passed st;
  inv_started : started st = passed st;
  inv_futures : ∀ x, x ∈ futures st ↔ x ∈ passed st ∧ x ∉ finished st;
  inv_futures_nodup : NoDup (futures st);
  inv_start_started : ∀ x, is_Some (starttime st !! x) → x ∈ started st;
  inv_end_start : ∀ x, is_Some (endtime st !! x) → is_Some (starttime st !! x);
  inv_result_end : ∀ x, is_Some (result st !! x) ↔ is_Some (endtime st !! x);
  inv_end_now : ∀ x t, endtime st !! x = Some t → (t ≤ now st)%nat;
  inv_passed_preds : ∀ s p, s ∈ passed st → p ∈ preds deps s → p ∈ finished st;
  inv_finished_result : ∀ x, x ∈ finished st → is_Some (result st !! x);
  inv_start_preds : ∀ s ts p, starttime st !! s = Some ts → p ∈ preds deps s →
                      ∃ te, endtime st !! p = Some te ∧ (te ≤ ts)%nat;
  inv_stderr : ∀ x m, (x, m) ∈ stderr st ↔ x ∈ finished st ∧ result st !! x = Some (Failure m);
  inv_stderr_nodup : NoDup (map fst (stderr st));
  inv_exit : exitcode st = if decide (stderr st = []) then exitcode0 else 1;
  inv_finished_caught : ∀ x o, x ∈ finished st → result st !! x = Some o → caught o = true
}.

(* ------------------------------------------------------------------ *)
(** ** Removal planner ([ModuleList], [Modprobe.solve_modules_remove]) *)

(** The [module.list] response: one [(name, services)] pair per entry. *)
Definition ModuleList := list (string * list string).

Definition loaded_modules (ml : ModuleList) : list string := map fst ml.

(** [self.servicemap]: later entries overwrite earlier ones. *)
Definition servicemap (ml : ModuleList) : dict string string :=
  foldl (λ m e, foldl (λ m s, dict_set s e.1 m) m e.2) [] ml.

Definition lookup (ml : ModuleList) (s : string) : option string :=
  dict_get s (servicemap ml).

(** [Modprobe.has_task] *)
Definition has_task (db : TaskDB) (x : string) : bool :=
  match get db x with Ok _ => true | Err _ => false end.

(** [rdeps[mlist.lookup(mod)].add(name)] for every edge of [deps];
    the defaultdict's keys appear in first-access order. *)
Definition rdeps_of (ml : ModuleList) (deps : dict string (list string))
    : dict (option string) (gset string) :=
  foldl (λ r '(nm, deplist),
      foldl (λ r md,
          dict_set (lookup ml md) ({[nm]} ∪ default ∅ (dict_get (lookup ml md) r)) r)
        r deplist)
    [] deps.

Definition rdeps_at (r : dict (option string) (gset string)) (k : option string) : gset string :=
  default ∅ (dict_get k r).

(** [set.discard(name)]; no set holds [None]. *)
Definition discard (nm : option string) (ds : gset string) : gset string :=
  match nm with Some s => ds ∖ {[s]} | None => ds end.

(** The state [remove_dep] mutates: [rdeps_copy] and [modules]. *)
Record RemoveState := mkRS {
  rcopy : dict (option string) (gset string);
  mods : list string
}.

(** The nested [remove_dep(name)]: iterate over [rdeps_copy.items()]
    (its keys do not change meanwhile), discard [name] from each
    non-empty set, and recurse on every set that this empties. *)
Fixpoint remove_dep (depth : nat) (ml : ModuleList) (nm : option string) (st : RemoveState)
    : res RemoveState :=
  match depth with
  | 0 => Err RecursionLimit
  | S d =>
      let fix loop (ks : list (option string)) (st : RemoveState) : res RemoveState :=
        match ks with
        | [] => Ok st
        | k :: ks' =>
            let ds := rdeps_at (rcopy st) k in
            if decide (ds = ∅) then loop ks' st
            else
              let ds' := discard nm ds in
              let st1 := mkRS (dict_set k ds' (rcopy st)) (mods st) in
              if decide (ds' = ∅) then
                st2 ← remove_dep d ml k st1;
                let st3 :=
                  match k with
                  | Some s =>
                      if decide (s ∈ loaded_modules ml)
                      then mkRS (rcopy st2) (mods st2 ++ [s]) else st2
                  | None => st2
                  end in
                loop ks' st3
              else loop ks' st1
        end in
      loop (dict_keys (rcopy st)) st
  end.

(** [for name in modules: remove_dep(mlist.lookup(name))], over a list
    that grows while it is iterated. *)
Fixpoint remove_loop (fuel : nat) (ml : ModuleList) (i : nat) (st : RemoveState)
    : res RemoveState :=
  match fuel with
  | 0 => Err OutOfFuel
  | S f =>
      match mods st !! i with
      | None => Ok st
      | Some nm =>
          st' ← remove_dep recursion_limit ml (lookup ml nm) st;
          remove_loop f ml (S i) st'
      end
  end.

(** Each [remove_dep] appends at most one name per set it empties. *)
Definition closure (ml : ModuleList) (rdeps : dict (option string) (gset string))
    (modules : list string) : res RemoveState :=
  remove_loop (length modules + length rdeps + 1) ml 0 (mkRS rdeps modules).

(** [if rdeps_copy[name]: raise ValueError(f"{name} still in use by ...")] *)
Fixpoint in_use_check (r : dict (option string) (gset string)) (l : list string) : res unit :=
  match l with
  | [] => Ok ()
  | n :: l' => if decide (rdeps_at r (Some n) = ∅) then in_use_check r l' else Err (InUse n)
  end.

(** [if not mlist.lookup(module): raise ValueError("module ... is not loaded")] *)
Fixpoint loaded_check (ml : ModuleList) (l : list string) : res unit :=
  match l with
  | [] => Ok ()
  | m :: l' =>
      match lookup ml m with
      | None => Err (NotLoaded m)
      | Some s => if decide (s = "") then Err (NotLoaded m) else loaded_check ml l'
      end
  end.

(** [all_modules = [x for x in mlist if self.has_task(x)]] *)
Definition all_modules (db : TaskDB) (ml : ModuleList) : list string :=
  filter (λ x, has_task db x = true) (loaded_modules ml).

(** The modules to remove: all of them when none is named, else the
    named ones once each is checked to be loaded. *)
Definition removal_list (db : TaskDB) (ml : ModuleList) (modules : list string)
    : res (list string) :=
  match modules with
  | [] => Ok (all_modules db ml)
  | _ :: _ => loaded_check ml modules ≫= λ _, Ok modules
  end.

Definition solve_modules_remove (db : TaskDB) (ml : ModuleList) (modules : list string)
    : res (list string * dict string (gset string)) :=
  modules ← removal_list db ml modules;
  deps ← get_deps db (all_modules db ml);
  let rdeps := rdeps_of ml deps in
  st ← closure ml rdeps modules;
  in_use_check (rcopy st) (mods st) ≫= λ _,
  let rtasks : gset string :=
    foldl (λ s svc, match lookup ml svc with Some n => {[n]} ∪ s | None => s end) ∅ (mods st) in
  Ok (elements rtasks,
      map (λ n, (n, filter (λ x, x ∈ rtasks) (rdeps_at rdeps (Some n)))) (elements rtasks)).

(* ------------------------------------------------------------------ *)
(** ** Module options ([Context.setopt], [Context.getopts]) *)

(** [Context.module_args], a [defaultdict(list)], is a
    [gmap string (list string)]: reading a missing key inserts an empty
    list, which no caller can observe, so a missing key reads as [[]]. *)

(** [Context.setopt(module, option)] *)
Definition setopt (m o : string) (ma : gmap string (list string)) : gmap string (list string) :=
  <[m := default [] (ma !! m) ++ [o]]> ma.

(** [Context.getopts(name, also)]: the options of [name], then those of
    each name of [also] in order ([None] is Python's [None]). *)
Definition getopts (ma : gmap string (list string)) (nm : string) (also : option (list string)) : list string :=
  concat (map (λ n, default [] (ma !! n)) (nm :: default [] also)).

(* ------------------------------------------------------------------ *)
(** ** Registration of modules by name ([Modprobe.activate_modules]) *)

(** The exceptions of [activate_modules]: the ValueError of [get_task],
    and [ValueError(f"{module} is not a module")]. *)
Inductive activate_error :=
  | ActGet (e : error)
  | NotAModule (m : string).

Section Activate.
(** [isinstance(obj, Module)] for the task object of each id. *)
Variable is_module : nat → bool.

(** [Modprobe.activate_modules(modules)] on [_active_tasks = act]: the
    list it leaves behind and the exception it raised, if any; the names
    appended before an exception stay appended. *)
Fixpoint activate_modules (db : TaskDB) (act : list string) (modules : list string)
    : list string * option activate_error :=
  match modules with
  | [] => (act, None)
  | m :: ms =>
      match get_id db m with
      | Err e => (act, Some (ActGet e))
      | Ok id =>
          match heap db !! id with
          | None => (act, Some (ActGet (NotFound m)))
          | Some _ =>
              if is_module id then activate_modules db (act ++ [m]) ms
              else (act, Some (NotAModule m))
          end
      end
  end.
End Activate.

(* ------------------------------------------------------------------ *)
(** ** Module search path ([Modprobe.configure_modules]) *)

(** Python's [str.split(sep)] with a one-character separator: the fields
    between separators, empty ones included; [""] gives [[""]]. *)
Fixpoint split_on (c : Ascii.ascii) (s : string) : list string :=
  match s with
  | EmptyString => [EmptyString]
  | String a s' =>
      let r := split_on c s' in
      if decide (a = c) then EmptyString :: r
      else match r with
           | f :: r' => String a f :: r'
           | [] => [String a EmptyString]
           end
  end.

(** [str.isspace()] on a string whose characters are the code points
    U+0000..U+00FF: false on [""], else every character is whitespace
    (U+0009..U+000D, U+001C..U+0020, U+0085, U+00A0). *)
Definition py_space (a : Ascii.ascii) : bool :=
  let n := Ascii.nat_of_ascii a in
  (Nat.leb 9 n && Nat.leb n 13) || (Nat.leb 28 n && Nat.leb n 32) ||
  Nat.eqb n 133 || Nat.eqb n 160.

Fixpoint all_space (s : string) : bool :=
  match s with
  | EmptyString => true
  | String a s' => py_space a && all_space s'
  end.

Definition py_isspace (s : string) : bool :=
  match s with
  | EmptyString => false
  | _ => all_space s
  end.

(** The character [":"] (code point 58). *)
Definition colon : Ascii.ascii := Ascii.ascii_of_nat 58.

(** The [dirs] list of [configure_modules], for the value of
    [FLUX_MODPROBE_PATH] ([None] when it is unset).  The first entry is
    a plain string literal, not an f-string: ["{etc}"] is not replaced. *)
Definition modules_dirs (flux_modprobe_path : option string) : list string :=
  "{etc}/modules.d/*.toml"
    :: filter (λ s, py_isspace s = false) (split_on colon (default "" flux_modprobe_path)).

Section Configure.
(** [Path(directory).exists()] *)
Variable path_exists : string → bool.

(** The patterns [configure_modules] hands to [glob.glob], in order. *)
Definition configure_globs (flux_modprobe_path : option string) : list string :=
  map (λ d, String.append d "/modules.d/*.toml")
    (filter (λ d, path_exists d = true) (modules_dirs flux_modprobe_path)).
End Configure.

(* ------------------------------------------------------------------ *)
(** ** Shape of a predecessor map *)

(** Every key of [deps], and every name listed under a key, is one of
    [ts]. *)
Definition deps_in (ts : list string) (deps : dict string (list string)) : Prop :=
  (∀ k, k ∈ dict_keys deps → k ∈ ts) ∧ (∀ k v, dict_get k deps = Some v → ∀ x, x ∈ v → x ∈ ts).

(* ------------------------------------------------------------------ *)
(** ** Reference definitions, following the spec's words *)

(** Names reachable from the seed list through [requires] edges, each
    name resolved through the DB. *)
Inductive reach (db : TaskDB) (seeds : list string) : string → Prop :=
  | reach_seed x : x ∈ seeds → reach db seeds x
  | reach_req x t y : reach db seeds x → get db x = Ok t → y ∈ requires t → reach db seeds y.

(** The spec's solver output: the canonical names of the enabled tasks
    reachable from the seed. *)
Definition solved_ref (ctx : Context) (db : TaskDB) (seeds : list string) (n : string) : Prop :=
  ∃ x t, reach db seeds x ∧ get db x = Ok t ∧ enabled t ctx = true ∧ name t = n.

(* ------------------------------------------------------------------ *)
(** ** Scenarios *)

Module Scenario.
(** A context in which every rank, config and attribute test passes. *)
Definition ctx_all : Context := mkContext 0 (λ _, true) (λ _, true).

(** S3: [mem] and [disk] both provide [store], registered in that order. *)
Definition mem : Task := mkTask "mem" ["store"] [] [] [] [] RankAll [] [] false.
Definition disk : Task := mkTask "disk" ["store"] [] [] [] [] RankAll [] [] false.
Definition db_store : TaskDB := db_of [mem; disk].

(** One pass of [process_needs]: [a] needs [b], [b] needs [c], and
    nothing provides [c]. *)
Definition need_a : Task := mkTask "a" [] [] ["b"] [] [] RankAll [] [] false.
Definition need_b : Task := mkTask "b" [] [] ["c"] [] [] RankAll [] [] false.
Definition db_needs : TaskDB := db_of [need_a; need_b].

(** A canonical name shadowed by an alias: task [x] provides [y], task
    [z] provides [x] (so [get "x"] is [z]); [a] requires [y] and [b],
    [b] requires [x]. *)
Definition sh_x : Task := mkTask "x" ["y"] [] [] [] [] RankAll [] [] false.
Definition sh_z : Task := mkTask "z" ["x"] [] [] [] [] RankAll [] [] false.
Definition sh_b : Task := mkTask "b" [] ["x"] [] [] [] RankAll [] [] false.
Definition sh_a : Task := mkTask "a" [] ["y"; "b"] [] [] [] RankAll [] [] false.
Definition db_shadow : TaskDB := db_of [sh_x; sh_z; sh_b; sh_a].

(** A [requires] cycle through aliases only: [b] provides [s] and
    requires [t]; [c] provides [t] and requires [s]. *)
Definition cy_b : Task := mkTask "b" ["s"] ["t"] [] [] [] RankAll [] [] false.
Definition cy_c : Task := mkTask "c" ["t"] ["s"] [] [] [] RankAll [] [] false.
Definition db_cycle : TaskDB := db_of [cy_b; cy_c].

(** S5: [kvs] requires [content], [content] requires [content-backing];
    all three are loaded and each lists its own name as a service. *)
Definition kvs : Task := mkTask "kvs" [] ["content"] [] [] [] RankAll [] [] false.
Definition content : Task :=
  mkTask "content" [] ["content-backing"] [] [] [] RankAll [] [] false.
Definition content_backing : Task := task0 "content-backing".
Definition db_s5 : TaskDB := db_of [content_backing; content; kvs].
Definition ml_s5 : ModuleList :=
  [("content-backing", ["content-backing"]); ("content", ["content"]); ("kvs", ["kvs"])].

(** S5 with the ordering edges of the shipped catalogue as well:
    [kvs] after [content], [content] after [content-backing]. *)
Definition kvs_after : Task :=
  mkTask "kvs" [] ["content"] [] [] ["content"] RankAll [] [] false.
Definition content_after : Task :=
  mkTask "content" [] ["content-backing"] [] [] ["content-backing"] RankAll [] [] false.
Definition db_s5_after : TaskDB := db_of [content_backing; content_after; kvs_after].

(** A module named by a service: [content-sqlite] provides
    [content-backing] and lists both names as services; [content] is
    ordered after [content-backing]; both are loaded. *)
Definition content_sqlite : Task :=
  mkTask "content-sqlite" ["content-backing"] [] [] [] [] RankAll [] [] false.
Definition content_after_backing : Task :=
  mkTask "content" [] [] [] [] ["content-backing"] RankAll [] [] false.
Definition db_alias : TaskDB := db_of [content_sqlite; content_after_backing].
Definition ml_alias : ModuleList :=
  [("content-sqlite", ["content-sqlite"; "content-backing"]); ("content", ["content"])].

(** A two-task chain [a -> b] for the executor. *)
Definition db_chain : TaskDB := db_of [task0 "a"; task0 "b"].
Definition deps_chain : dict string (list string) := [("a", []); ("b", ["a"])].

(** A run of [deps_chain] on a clock that does not move: [a] is handed
    out, runs with outcome [o] and is marked done; then [b] is handed
    out, runs and succeeds, and the loop ends. *)
Definition chain_a_submitted : ExecState :=
  main_top db_chain deps_chain (set_pc PTop (init_state 0)).
Definition chain_a_ended (o : outcome) : ExecState :=
  worker_end "a" o (worker_start "a" chain_a_submitted).
Definition chain_b_submitted (o : outcome) : ExecState :=
  main_top db_chain deps_chain (main_collect (chain_a_ended o)).
Definition chain_b_started (o : outcome) : ExecState :=
  worker_start "b" (chain_b_submitted o).
Definition chain_done (o : outcome) : ExecState :=
  main_top db_chain deps_chain (main_collect (worker_end "b" Success (chain_b_started o))).
(** A run of [deps_chain] in which [a]'s body raises KeyboardInterrupt,
    a BaseException that is not an Exception, and [a] is collected. *)
Definition chain_a_escaped : ExecState :=
  main_collect (chain_a_ended (Escape "KeyboardInterrupt")).

(** A run of [deps_chain] on a [Modprobe] whose [self.exitcode] is
    already 1 from an earlier run; both tasks succeed. *)
Definition rerun_a_ended : ExecState :=
  worker_end "a" Success
    (worker_start "a" (main_top db_chain deps_chain (set_pc PTop (init_state 1)))).
Definition rerun_b_started : ExecState :=
  worker_start "b" (main_top db_chain deps_chain (main_collect rerun_a_ended)).
Definition rerun_done : ExecState :=
  main_top db_chain deps_chain (main_collect (worker_end "b" Success rerun_b_started)).

(** A third provider of [store], added after [mem] and [disk]. *)
Definition ssd : Task := mkTask "ssd" ["store"] [] [] [] [] RankAll [] [] false.

(** The orchestrator over [db_needs] with [a] and [b] active. *)
Definition mp_needs : Modprobe := mkModprobe db_needs ["a"; "b"] ctx_all.
End Scenario.

(* ================================================================== *)
(** * Properties *)

(* ------------------------------------------------------------------ *)
(** ** The exception monad and [mapM] *)

Lemma bind_Ok {A B} (m : res A) (f : A → res B) (b : B) :
  (m ≫= f) = Ok b ↔ ∃ a, m = Ok a ∧ f a = Ok b.
Proof. destruct m; simpl; split; naive_solver. Qed.

Lemma mapM_res_Ok {A B} (f : A → res B) (l : list A) (r : list B) :
  mapM f l = Ok r ↔ Forall2 (λ x y, f x = Ok y) l r.
Proof.
  revert r. induction l as [|x l IH]; intros r; simpl;
    unfold mret, mbind, res_ret, res_bind in *.
  - split; [intros H; injection H as <-; constructor | intros H; inversion H; done].
  - destruct (f x) as [y|e] eqn:Hf; simpl.
    + destruct (mapM f l) as [k|e] eqn:Hm; simpl.
      * split.
        -- intros H; injection H as <-. constructor; [done|]. by apply IH.
        -- intros H. inversion H as [|? ? ? k' Hy Hk]; subst.
           rewrite Hf in Hy. injection Hy as ->. apply IH in Hk. congruence.
      * split; [done|]. intros H. inversion H as [|? ? ? k' Hy Hk]; subst.
        apply IH in Hk. congruence.
    + split; [done|]. intros H. inversion H; subst. congruence.
Qed.

Lemma mapM_res_Err {A B} (f : A → res B) (l : list A) :
  (∃ x, x ∈ l ∧ ∃ e, f x = Err e) → ∃ e, mapM f l = Err e ∧ ∃ x, x ∈ l ∧ f x = Err e.
Proof.
  induction l as [|x l IH]; intros (z & Hz & e & He); [set_solver|]. simpl.
  destruct (f x) as [y|e'] eqn:Hf; simpl.
  - apply elem_of_cons in Hz as [->|Hz]; [congruence|].
    destruct IH as (e'' & Hm & w & Hw & Hwe); [eauto|].
    rewrite Hm. simpl. exists e''. split; [done|]. exists w. split; [set_solver|done].
  - exists e'. split; [done|]. exists x. split; [set_solver|done].
Qed.

Lemma Forall2_elem_l {A B} (P : A → B → Prop) (l : list A) (k : list B) x :
  Forall2 P l k → x ∈ l → ∃ y, y ∈ k ∧ P x y.
Proof.
  induction 1 as [|a b l k Hab _ IH]; [set_solver|].
  intros [->|Hx]%elem_of_cons; [exists b; split; [set_solver|done]|].
  destruct (IH Hx) as (y & ? & ?). exists y. split; [set_solver|done].
Qed.

Lemma Forall2_elem_r {A B} (P : A → B → Prop) (l : list A) (k : list B) y :
  Forall2 P l k → y ∈ k → ∃ x, x ∈ l ∧ P x y.
Proof.
  induction 1 as [|a b l k Hab _ IH]; [set_solver|].
  intros [->|Hy]%elem_of_cons; [exists a; split; [set_solver|done]|].
  destruct (IH Hy) as (x & ? & ?). exists x. split; [set_solver|done].
Qed.

Lemma get_Err db x e : get db x = Err e → e = NotFound x.
Proof.
  unfold get, get_id. destruct (last _); simpl; [|congruence].
  destruct (heap db !! _); congruence.
Qed.

(* ------------------------------------------------------------------ *)
(** ** TaskDB *)

Lemma set_disabled_idemp t : set_disabled (set_disabled t) = set_disabled t.
Proof. by destruct t. Qed.

Lemma disable_heap_lookup (l : list nat) (h : gmap nat Task) (id : nat) :
  foldl (λ h id, alter set_disabled id h) h l !! id
  = if decide (id ∈ l) then set_disabled <$> h !! id else h !! id.
Proof.
  revert h. induction l as [|a l IH]; intros h; cbn [foldl].
  - rewrite decide_False; [done | set_solver].
  - rewrite IH, lookup_alter.
    destruct (decide (a = id)) as [->|Hne];
      destruct (decide (id ∈ l)) as [Hl|Hl];
      destruct (decide (id ∈ _ :: l)) as [Hl'|Hl']; try set_solver;
      destruct (h !! id); simpl; rewrite ?set_disabled_idemp; done.
Qed.

(** C6: alternatives.  [set_alternative(service, X)] makes the entry named
    [X] the tail, so [get(service)] returns it; it fails with NotFound
    when no entry under [service] is named [X]; [None] disables the
    service; [disable(service)] marks every entry under it disabled. *)
Theorem set_alternative_then_get (db : TaskDB) (service X : string) :
  ((∃ id, id ∈ default [] (tasks db !! service) ∧ obj_named db X id) →
     ∃ db', set_alternative db service (Some X) = Ok db' ∧
            ∃ t, get db' service = Ok t ∧ name t = X) ∧
  ((¬ ∃ id, id ∈ default [] (tasks db !! service) ∧ obj_named db X id) →
     set_alternative db service (Some X) = Err (NotFound X)) ∧
  set_alternative db service None = Ok (disable db service) ∧
  (∀ id t, id ∈ default [] (tasks db !! service) → heap db !! id = Some t →
     heap (disable db service) !! id = Some (set_disabled t) ∧
     disabled (set_disabled t) = true).
Proof.
  split; [|split; [|split]].
  - intros (id & Hin & Hn). simpl.
    destruct (list_find (obj_named db X) (default [] (tasks db !! service)))
      as [[i id']|] eqn:Hf.
    + eexists; split; [done|].
      apply list_find_Some in Hf as (_ & Hn' & _).
      unfold obj_named in Hn'. destruct (heap db !! id') as [t|] eqn:Ht; [|done].
      simpl in Hn'. injection Hn' as Hname.
      exists t. unfold get, get_id; simpl.
      rewrite lookup_insert_eq. simpl. rewrite last_snoc. simpl. by rewrite Ht.
    + apply list_find_None in Hf. rewrite Forall_forall in Hf.
      exfalso. by apply (Hf id).
  - intros Hno. simpl.
    destruct (list_find (obj_named db X) (default [] (tasks db !! service)))
      as [[i id']|] eqn:Hf; [|done].
    apply list_find_Some in Hf as (Hl & Hn & _).
    exfalso. apply Hno. exists id'. split; [|done].
    by eapply list_elem_of_lookup_2.
  - done.
  - intros id t Hin Ht. unfold disable; simpl.
    rewrite disable_heap_lookup, decide_True by done. rewrite Ht. by split.
Qed.

Lemma any_provides_false_iff (db : TaskDB) (ts : list string) (n : string) :
  any_provides db ts n = Ok false ↔
    ∀ x, x ∈ ts → ∃ t, get db x = Ok t ∧ (disabled t = true ∨ n ∉ name t :: provides t).
Proof.
  unfold any_provides. destruct (mapM (get db) ts) as [l|e] eqn:Hm; simpl.
  + apply mapM_res_Ok in Hm.
    assert (Hex : existsb (provides_name n) l = false ↔
                  Forall (λ t, provides_name n t = false) l).
    { rewrite Forall_forall. rewrite <- not_true_iff_false, existsb_exists.
      split.
      - intros H t Ht. apply not_true_is_false. intros Hp. apply H.
        exists t. split; [by apply list_elem_of_In|done].
      - intros H (t & Ht & Hp). apply list_elem_of_In in Ht.
        rewrite (H t Ht) in Hp. done. }
    assert (Hpn : ∀ t, provides_name n t = false ↔
                       disabled t = true ∨ n ∉ name t :: provides t).
    { intros t. unfold provides_name. destruct (disabled t); simpl; [naive_solver|].
      rewrite bool_decide_eq_false. naive_solver. }
    split.
    * intros H. injection H as H. apply Hex in H.
      intros x Hx. destruct (Forall2_elem_l _ _ _ _ Hm Hx) as (t & Ht & Hf).
      exists t. split; [done|]. apply Hpn. rewrite Forall_forall in H. by apply H.
    * intros H. f_equal. apply Hex.
      apply Forall_forall. intros t Ht.
      destruct (Forall2_elem_r _ _ _ _ Hm Ht) as (x & Hx & Hxt).
      destruct (H x Hx) as (t' & Ht' & Hd).
      rewrite Hxt in Ht'. injection Ht' as <-. by apply Hpn.
  + split; [done|]. intros H.
    exfalso. assert (Hall : Forall2 (λ x y, get db x = Ok y) ts
                             (fmap (λ x, match get db x with Ok t => t | Err _ => task0 "" end) ts)).
    { apply Forall2_fmap_r, Forall_Forall2_diag, Forall_forall. intros x Hx.
      destruct (H x Hx) as (t & Ht & _). simpl. by rewrite Ht. }
    apply mapM_res_Ok in Hall. congruence.
Qed.

(** C10: [any_provides] resolves the whole list first. *)
Theorem any_provides_resolves_first (db : TaskDB) (ts : list string) (n : string) :
  ((∃ x, x ∈ ts ∧ ∃ e, get db x = Err e) →
     ∃ s, any_provides db ts n = Err (NotFound s)) ∧
  (any_provides db ts n = Ok false ↔
     ∀ x, x ∈ ts → ∃ t, get db x = Ok t ∧
       (disabled t = true ∨ n ∉ name t :: provides t)).
Proof.
  split.
  - intros Hx. destruct (mapM_res_Err (get db) ts Hx) as (e & Hm & x & _ & Hxe).
    apply get_Err in Hxe as ->. exists x. unfold any_provides. by rewrite Hm.
  - apply any_provides_false_iff.
Qed.

(* ------------------------------------------------------------------ *)
(** ** Solver *)

Lemma solve_single_Err (d : nat) (ctx : Context) (db : TaskDB) (x : string)
    (V sk : gset string) (t : Task) (e : error) :
  x ∉ V → get db x = Ok t → requires t ≠ [] →
  (∀ sk', solve_tasks_recursive d ctx db (requires t) ({[name t]} ∪ V) sk' = Err e) →
  solve_tasks_recursive (S d) ctx db [x] V sk = Err e.
Proof.
  intros Hx Hg Hr Hrec. cbn [solve_tasks_recursive].
  rewrite filter_cons_True by done. cbn [filter list_filter].
  rewrite Hg. simpl.
  destruct (enabled t ctx), (requires t) as [|r rs]; try congruence; by rewrite Hrec.
Qed.

Lemma solve_alias_cycle_loops (d : nat) :
  ∀ V sk, "b" ∈ V → "c" ∈ V → "s" ∉ V → "t" ∉ V →
  solve_tasks_recursive d Scenario.ctx_all Scenario.db_cycle ["s"] V sk = Err RecursionLimit ∧
  solve_tasks_recursive d Scenario.ctx_all Scenario.db_cycle ["t"] V sk = Err RecursionLimit.
Proof.
  induction d as [|d IH]; intros V sk Hb Hc Hs Ht; [done|].
  split.
  - apply (solve_single_Err _ _ _ _ _ _ Scenario.cy_b); [done|vm_compute; reflexivity|done|].
    intros sk'. apply IH; simpl; set_solver.
  - apply (solve_single_Err _ _ _ _ _ _ Scenario.cy_c); [done|vm_compute; reflexivity|done|].
    intros sk'. apply IH; simpl; set_solver.
Qed.

(** C8: with [b] providing [s] and requiring [t], and [c] providing [t]
    and requiring [s], solving [s] never returns: [visited] receives the
    canonical names [b] and [c] but is tested against the aliases [s]
    and [t], so [s] and [t] are processed again and again; every finite
    recursion depth is exhausted (CPython raises RecursionError). *)
Theorem solve_alias_cycle_diverges (depth : nat) :
  solve_tasks_recursive depth Scenario.ctx_all Scenario.db_cycle ["s"] ∅ ∅ = Err RecursionLimit.
Proof.
  destruct depth as [|d]; [done|].
  apply (solve_single_Err _ _ _ _ _ _ Scenario.cy_b); [set_solver|vm_compute; reflexivity|done|].
  intros sk'. destruct d as [|d]; [done|].
  apply (solve_single_Err _ _ _ _ _ _ Scenario.cy_c); [simpl; set_solver|vm_compute; reflexivity|done|].
  intros sk''. apply solve_alias_cycle_loops; simpl; set_solver.
Qed.

(** C4: with task [x] providing [y] and task [z] providing [x] (so the
    name [x] resolves to [z]), [a] requiring [y] and [b], and [b]
    requiring [x]: [z] is an enabled task reachable from [a] (through
    [b] and the name [x]), but the solver skips the name [x] because the
    canonical name [x] of the other task is already in [visited]. *)
Theorem solve_shadowed_name_missed :
  solve Scenario.ctx_all Scenario.db_shadow ["a"] = Ok {["a"; "x"; "b"]} ∧
  "z" ∉ ({["a"; "x"; "b"]} : gset string) ∧
  solved_ref Scenario.ctx_all Scenario.db_shadow ["a"] "z".
Proof.
  split; [vm_compute; reflexivity|]. split; [set_solver|].
  exists "x", Scenario.sh_z. split; [|split; [vm_compute; reflexivity|split; done]].
  apply (reach_req _ _ "b" Scenario.sh_b); [|vm_compute; reflexivity|set_solver].
  apply (reach_req _ _ "a" Scenario.sh_a); [|vm_compute; reflexivity|set_solver].
  apply reach_seed. set_solver.
Qed.

(** C3: [process_needs] makes one pass.  With [a] needing [b] and [b]
    needing [c] (provided by nothing), it removes [b] after [a] was
    already kept, and returns [[a]], in which the need [b] of [a] is no
    longer provided. *)
Theorem process_needs_not_fixed_point :
  process_needs Scenario.db_needs ["a"; "b"] = Ok ["a"] ∧
  get Scenario.db_needs "a" = Ok Scenario.need_a ∧
  "b" ∈ needs Scenario.need_a ∧
  any_provides Scenario.db_needs ["a"] "b" = Ok false.
Proof.
  split; [vm_compute; reflexivity|]. split; [vm_compute; reflexivity|].
  split; [set_solver|vm_compute; reflexivity].
Qed.

(** C5: [get_deps] looks every name of the solved set up again with
    [get_task(name)].  With [z] providing the canonical name [x], the
    solved set is [{a, b, x}] but the predecessor map is keyed by
    [a], [b] and [z]: the solved task [x] has no entry, and [z], which
    is not in the set, has one. *)
Theorem get_deps_shadowed_key :
  solve Scenario.ctx_all Scenario.db_shadow ["a"] = Ok {["a"; "x"; "b"]} ∧
  elements ({["a"; "x"; "b"]} : gset string) = ["a"; "b"; "x"] ∧
  get_deps Scenario.db_shadow ["a"; "b"; "x"] = Ok [("a", []); ("b", []); ("z", [])].
Proof.
  split; [vm_compute; reflexivity|]. split; vm_compute; reflexivity.
Qed.

(* ------------------------------------------------------------------ *)
(** ** Needs pruning and the [active_tasks] property *)

Local Open Scope nat_scope.

(** Every name of [l] resolves. *)
Definition resolves (db : TaskDB) (l : list string) : Prop :=
  ∀ x, x ∈ l → ∃ t, get db x = Ok t.

Lemma cnt_elem (l : list string) (x : string) : x ∈ l ↔ 0 < cnt l x.
Proof. unfold cnt. rewrite list_elem_of_In. apply count_occ_In. Qed.

Lemma cnt_sub_elem (c l : list string) (x : string) :
  (∀ y, cnt c y ≤ cnt l y) → x ∈ c → x ∈ l.
Proof. intros H. rewrite !cnt_elem. specialize (H x). lia. Qed.

Lemma cnt_cons_eq (l : list string) (x : string) : cnt (x :: l) x = S (cnt l x).
Proof. unfold cnt. apply count_occ_cons_eq. done. Qed.

Lemma cnt_cons_neq (l : list string) (x y : string) : x ≠ y → cnt (x :: l) y = cnt l y.
Proof. unfold cnt. apply count_occ_cons_neq. Qed.

Lemma list_remove_cnt (x y : string) (l : list string) :
  cnt (list_remove x l) y = if decide (x = y) then pred (cnt l y) else cnt l y.
Proof.
  induction l as [|a l IH]; cbn [list_remove]; [by destruct (decide (x = y))|].
  destruct (decide (x = a)) as [->|Hxa].
  - destruct (decide (a = y)) as [->|Hay].
    + by rewrite cnt_cons_eq.
    + by rewrite cnt_cons_neq.
  - destruct (decide (a = y)) as [->|Hay].
    + rewrite !cnt_cons_eq, IH. destruct (decide (x = y)); [congruence|done].
    + rewrite !cnt_cons_neq by done. done.
Qed.

Lemma list_remove_cnt_le (x y : string) (l : list string) :
  cnt (list_remove x l) y ≤ cnt l y.
Proof. rewrite list_remove_cnt. destruct (decide (x = y)); lia. Qed.

Lemma resolves_sub (db : TaskDB) (c l : list string) :
  (∀ y, cnt c y ≤ cnt l y) → resolves db l → resolves db c.
Proof. intros Hc Hl x Hx. apply Hl. by eapply cnt_sub_elem. Qed.

Lemma mapM_get_Ok (db : TaskDB) (ts : list string) :
  resolves db ts → ∃ l, mapM (get db) ts = Ok l.
Proof.
  intros H.
  exists (fmap (λ x, match get db x with Ok t => t | Err _ => task0 "" end) ts).
  apply mapM_res_Ok, Forall2_fmap_r, Forall_Forall2_diag, Forall_forall. intros x Hx.
  destruct (H x Hx) as (t & Ht). simpl. by rewrite Ht.
Qed.

Lemma any_provides_Ok (db : TaskDB) (ts : list string) (n : string) :
  resolves db ts → ∃ b, any_provides db ts n = Ok b.
Proof.
  intros H. destruct (mapM_get_Ok db ts H) as (l & Hl).
  unfold any_provides. rewrite Hl. by eexists.
Qed.

Lemma needs_loop_cnt (db : TaskDB) (m : string) (ns cur cur' : list string) :
  needs_loop db m ns cur = Ok cur' → ∀ y, cnt cur' y ≤ cnt cur y.
Proof.
  revert cur. induction ns as [|need ns IH]; intros cur H y; simpl in H.
  - injection H as <-. done.
  - apply bind_Ok in H as ([] & _ & H).
    + by apply (IH cur).
    + etrans; [by apply (IH _ H)|].
      destruct (decide (m ∈ cur)); [apply list_remove_cnt_le|done].
Qed.

Lemma needs_loop_ok (db : TaskDB) (m : string) (ns cur : list string) :
  resolves db cur → ∃ cur', needs_loop db m ns cur = Ok cur'.
Proof.
  revert cur. induction ns as [|need ns IH]; intros cur H; simpl; [by eexists|].
  destruct (any_provides_Ok db cur need H) as (b & Hb). rewrite Hb. simpl.
  destruct b; [by apply IH|]. apply IH.
  destruct (decide (m ∈ cur)); [|done].
  eapply resolves_sub; [|done]. intros y. apply list_remove_cnt_le.
Qed.

(** A need nothing provides removes one occurrence of the task's name. *)
Lemma needs_loop_unsat (db : TaskDB) (m need : string) (ns cur cur' : list string) :
  need ∈ ns →
  (∀ c, (∀ y, cnt c y ≤ cnt cur y) → any_provides db c need = Ok false) →
  needs_loop db m ns cur = Ok cur' → cnt cur' m ≤ pred (cnt cur m).
Proof.
  revert cur. induction ns as [|a ns IH]; intros cur Hin Hf H; [set_solver|].
  simpl in H. apply elem_of_cons in Hin as [->|Hin].
  - rewrite (Hf cur) in H by done. simpl in H.
    etrans; [by apply (needs_loop_cnt _ _ _ _ _ H)|].
    destruct (decide (m ∈ cur)) as [Hm|Hm].
    + rewrite list_remove_cnt, decide_True by done. done.
    + apply cnt_elem in Hm ||
      (rewrite cnt_elem in Hm; lia).
  - apply bind_Ok in H as (b & _ & H).
    set (c1 := if b then cur else if decide (m ∈ cur) then list_remove m cur else cur).
    assert (Hc1 : ∀ y, cnt c1 y ≤ cnt cur y).
    { intros y. subst c1. destruct b; [done|].
      destruct (decide (m ∈ cur)); [apply list_remove_cnt_le|done]. }
    assert (H' : needs_loop db m ns c1 = Ok cur') by (subst c1; by destruct b).
    etrans; [apply (IH c1 Hin); [|exact H']|].
    + intros c Hc. apply Hf. intros y. etrans; [apply Hc|apply Hc1].
    + specialize (Hc1 m). lia.
Qed.

Lemma process_needs_loop_cnt (db : TaskDB) (copy cur r : list string) :
  process_needs_loop db copy cur = Ok r → ∀ y, cnt r y ≤ cnt cur y.
Proof.
  revert cur. induction copy as [|m rest IH]; intros cur H y; simpl in H.
  - injection H as <-. done.
  - apply bind_Ok in H as (t & _ & H). apply bind_Ok in H as (cur' & Hn & H).
    etrans; [by apply (IH _ H)|]. by apply (needs_loop_cnt _ _ _ _ _ Hn).
Qed.

Lemma process_needs_loop_ok (db : TaskDB) (copy cur : list string) :
  resolves db copy → resolves db cur → ∃ r, process_needs_loop db copy cur = Ok r.
Proof.
  revert cur. induction copy as [|m rest IH]; intros cur Hcopy Hcur; simpl; [by eexists|].
  destruct (Hcopy m) as (t & Ht); [set_solver|]. rewrite Ht. simpl.
  destruct (needs_loop_ok db m (needs t) cur Hcur) as (cur' & Hn). rewrite Hn. simpl.
  apply IH.
  - intros x Hx. apply Hcopy. set_solver.
  - eapply resolves_sub; [|done]. by apply (needs_loop_cnt _ _ _ _ _ Hn).
Qed.

(** Every copy of a name whose need nothing provides is removed. *)
Lemma process_needs_loop_prunes (db : TaskDB) (copy cur r : list string)
    (n need : string) (t : Task) :
  get db n = Ok t → need ∈ needs t →
  (∀ c, (∀ y, cnt c y ≤ cnt cur y) → any_provides db c need = Ok false) →
  cnt cur n ≤ cnt copy n →
  process_needs_loop db copy cur = Ok r → cnt r n = 0.
Proof.
  intros Ht Hneed. revert cur.
  induction copy as [|m rest IH]; intros cur Hf Hc H; simpl in H.
  - injection H as <-. change (cnt [] n) with 0 in Hc. lia.
  - apply bind_Ok in H as (tm & Htm & H). apply bind_Ok in H as (cur' & Hn & H).
    pose proof (needs_loop_cnt _ _ _ _ _ Hn) as Hle.
    apply (IH cur'); [| |exact H].
    + intros c Hc'. apply Hf. intros y. etrans; [apply Hc'|apply Hle].
    + destruct (decide (m = n)) as [->|Hmn].
      * rewrite Ht in Htm. injection Htm as <-.
        pose proof (needs_loop_unsat _ _ _ _ _ _ Hneed Hf Hn).
        rewrite cnt_cons_eq in Hc. lia.
      * rewrite cnt_cons_neq in Hc by done. specialize (Hle n). lia.
Qed.

Lemma filter_enabled_ok (db : TaskDB) (ctx : Context) (l : list string) :
  resolves db l → ∃ r, filter_enabled db ctx l = Ok r.
Proof.
  induction l as [|x l IH]; intros H; simpl; [by eexists|].
  destruct (H x) as (t & Ht); [set_solver|]. rewrite Ht. simpl.
  destruct IH as (r & Hr); [intros y Hy; apply H; set_solver|]. rewrite Hr. by eexists.
Qed.

Lemma filter_enabled_sub (db : TaskDB) (ctx : Context) (l r : list string) (x : string) :
  filter_enabled db ctx l = Ok r → x ∈ r → x ∈ l.
Proof.
  revert r. induction l as [|y l IH]; intros r H Hx; simpl in H.
  - injection H as <-. set_solver.
  - apply bind_Ok in H as (t & _ & H). apply bind_Ok in H as (r' & Hr' & H).
    injection H as <-. destruct (enabled t ctx).
    + apply elem_of_cons in Hx as [->|Hx]; [set_solver|]. apply elem_of_cons; right; eauto.
    + apply elem_of_cons; right; eauto.
Qed.

Lemma active_tasks_sub (mp mp' : Modprobe) (r : list string) :
  active_tasks mp = Ok (r, mp') →
  taskdb mp' = taskdb mp ∧ context mp' = context mp ∧
  (∀ y, cnt (active mp') y ≤ cnt (active mp) y) ∧ (∀ x, x ∈ r → x ∈ active mp').
Proof.
  unfold active_tasks. intros H.
  apply bind_Ok in H as (l & Hl & H). apply bind_Ok in H as (r' & Hr & H).
  injection H as <- <-. simpl. split; [done|]. split; [done|]. split.
  - by apply (process_needs_loop_cnt _ _ _ _ Hl).
  - intros x Hx. by eapply filter_enabled_sub.
Qed.

Lemma run_ops_keeps_out (n : string) (ops : list Op) :
  ∀ mp mp2 outs,
  (∀ t', OpAddActiveTask t' ∈ ops → name t' ≠ n) →
  n ∉ active mp →
  run_ops mp ops = Ok (mp2, outs) →
  n ∉ active mp2 ∧ ∀ o, o ∈ outs → n ∉ o.
Proof.
  induction ops as [|op ops IH]; intros mp mp2 outs Hops Hn H; simpl in H.
  - injection H as <- <-. split; [done|set_solver].
  - apply bind_Ok in H as ([mp1 o] & Hop & H). apply bind_Ok in H as ([mp3 outs'] & Hr & H).
    injection H as <- <-.
    assert (Hops' : ∀ t', OpAddActiveTask t' ∈ ops → name t' ≠ n).
    { intros t' Ht'. apply Hops. set_solver. }
    assert (Hstep : n ∉ active mp1 ∧ ∀ r, o = Some r → n ∉ r).
    { destruct op as [t|t| |svc nm]; simpl in Hop.
      - injection Hop as <- <-. simpl. by split.
      - injection Hop as <- <-. simpl. split; [|done].
        assert (name t ≠ n) by (apply Hops; set_solver).
        rewrite elem_of_app, list_elem_of_singleton. naive_solver.
      - apply bind_Ok in Hop as ([r mp'] & Ha & Hop). injection Hop as <- <-.
        destruct (active_tasks_sub _ _ _ Ha) as (_ & _ & Hc & Hr').
        assert (n ∉ active mp') by (intros Hin; apply Hn; by eapply cnt_sub_elem).
        split; [done|]. intros r' [= <-] Hin. by apply Hr' in Hin.
      - apply bind_Ok in Hop as (db' & _ & Hop). injection Hop as <- <-. by split. }
    destruct Hstep as [Hn1 Ho].
    destruct (IH mp1 mp3 outs' Hops' Hn1 Hr) as [Hn2 Houts].
    split; [done|]. intros o' Ho'.
    destruct o as [r|]; [|by apply Houts].
    apply elem_of_cons in Ho' as [->|Ho']; [by apply Ho|by apply Houts].
Qed.

(** C9: reading [active_tasks] prunes the stored list in place.  If a
    task [n] has a need that no name of the active list provides, the
    read succeeds, [n] is neither returned nor left in the stored list,
    and no later sequence of calls that does not add a new active task
    named [n] (registering providers, selecting alternatives, reading
    again) brings it back into the stored list or into any read. *)
Theorem active_tasks_prune_persists (mp : Modprobe) (n need : string) (t : Task) :
  get (taskdb mp) n = Ok t → need ∈ needs t →
  any_provides (taskdb mp) (active mp) need = Ok false →
  ∃ r mp1, active_tasks mp = Ok (r, mp1) ∧ n ∉ r ∧ n ∉ active mp1 ∧
    taskdb mp1 = taskdb mp ∧
    ∀ ops mp2 outs,
      (∀ t', OpAddActiveTask t' ∈ ops → name t' ≠ n) →
      run_ops mp1 ops = Ok (mp2, outs) →
      n ∉ active mp2 ∧ ∀ o, o ∈ outs → n ∉ o.
Proof.
  intros Ht Hneed Hf.
  assert (Hres : resolves (taskdb mp) (active mp)).
  { intros x Hx.
    destruct (proj1 (any_provides_false_iff (taskdb mp) (active mp) need) Hf x Hx)
      as (t' & Ht' & _). eauto. }
  destruct (process_needs_loop_ok (taskdb mp) (active mp) (active mp) Hres Hres) as (l & Hl).
  assert (Hlres : resolves (taskdb mp) l).
  { eapply resolves_sub; [|done]. by apply (process_needs_loop_cnt _ _ _ _ Hl). }
  destruct (filter_enabled_ok (taskdb mp) (context mp) l Hlres) as (r & Hr).
  assert (Hl0 : cnt l n = 0).
  { apply (process_needs_loop_prunes (taskdb mp) (active mp) (active mp) l n need t Ht Hneed);
      [|done|exact Hl].
    intros c Hc. apply any_provides_false_iff. intros x Hx.
    apply (proj1 (any_provides_false_iff (taskdb mp) (active mp) need) Hf).
    by eapply cnt_sub_elem. }
  assert (Hnl : n ∉ l) by (rewrite cnt_elem; lia).
  exists r, (mkModprobe (taskdb mp) l (context mp)).
  split; [unfold active_tasks, process_needs; by rewrite Hl; simpl; rewrite Hr|].
  split; [intros Hin; apply Hnl; by eapply filter_enabled_sub|].
  split; [done|]. split; [done|].
  intros ops mp2 outs Hops Hrun.
  exact (run_ops_keeps_out n ops (mkModprobe (taskdb mp) l (context mp)) mp2 outs Hops Hnl Hrun).
Qed.

(** The run of C9 on [a] needing [b] and [b] needing [c]: [b] is pruned
    on the first read and stays out. *)
Lemma active_tasks_prune_persists_witness :
  ∃ r mp1, active_tasks (mkModprobe Scenario.db_needs ["a"; "b"] Scenario.ctx_all) = Ok (r, mp1) ∧
    "b" ∉ r ∧ "b" ∉ active mp1 ∧ taskdb mp1 = Scenario.db_needs ∧
    ∀ ops mp2 outs,
      (∀ t', OpAddActiveTask t' ∈ ops → name t' ≠ "b") →
      run_ops mp1 ops = Ok (mp2, outs) →
      "b" ∉ active mp2 ∧ ∀ o, o ∈ outs → "b" ∉ o.
Proof.
  apply (active_tasks_prune_persists
           (mkModprobe Scenario.db_needs ["a"; "b"] Scenario.ctx_all) "b" "c" Scenario.need_b).
  - vm_compute. reflexivity.
  - simpl. left.
  - vm_compute. reflexivity.
Defined.

(* ------------------------------------------------------------------ *)
(** ** Removal planner *)

Section DictLemmas.
Context {K V : Type} `{EqDecision K}.

Lemma dict_get_set (k k' : K) (v : V) (d : dict K V) :
  dict_get k' (dict_set k v d) = if decide (k' = k) then Some v else dict_get k' d.
Proof.
  induction d as [|[k1 v1] d IH]; simpl; [done|].
  destruct (decide (k = k1)) as [->|Hk]; simpl.
  - destruct (decide (k' = k1)); done.
  - rewrite IH. destruct (decide (k' = k1)) as [->|]; [|done].
    by rewrite decide_False.
Qed.
End DictLemmas.

Lemma rdeps_at_set (k k' : option string) (v : gset string) (d : dict (option string) (gset string)) :
  rdeps_at (dict_set k v d) k' = if decide (k' = k) then v else rdeps_at d k'.
Proof. unfold rdeps_at. rewrite dict_get_set. by destruct (decide (k' = k)). Qed.

Lemma discard_sub (nm : option string) (ds : gset string) : discard nm ds ⊆ ds.
Proof. destruct nm; simpl; set_solver. Qed.

Lemma discard_lost (nm : option string) (ds : gset string) (r : string) :
  r ∈ ds → r ∉ discard nm ds → nm = Some r.
Proof.
  intros Hr Hr'. destruct nm as [s|]; simpl in Hr'; [|done].
  destruct (decide (r = s)) as [->|Hne]; [done|]. exfalso. apply Hr'. set_solver.
Qed.

(** [servicemap] only maps to names of loaded modules. *)
Lemma lookup_loaded (ml : ModuleList) (x s : string) :
  lookup ml x = Some s → s ∈ loaded_modules ml.
Proof.
  unfold lookup, servicemap.
  assert (Hgen : ∀ ml' (m : dict string string),
    (∀ e, e ∈ ml' → e.1 ∈ loaded_modules ml) →
    (∀ y s, dict_get y m = Some s → s ∈ loaded_modules ml) →
    ∀ y s, dict_get y (foldl (λ m e, foldl (λ m s, dict_set s e.1 m) m e.2) m ml') = Some s →
      s ∈ loaded_modules ml).
  { induction ml' as [|e ml' IH]; intros m He Hm; simpl; [done|].
    apply IH; [intros e' ?; apply He; set_solver|].
    assert (He1 : e.1 ∈ loaded_modules ml) by (apply He; set_solver).
    clear IH He. generalize (e.2) as l. intros l. revert m Hm.
    induction l as [|a l IHl]; intros m Hm; simpl; [done|].
    apply IHl. intros y s'. rewrite dict_get_set.
    destruct (decide (y = a)); [intros [= <-]; done|apply Hm]. }
  apply Hgen; [|done]. intros e He. unfold loaded_modules.
  by apply list_elem_of_fmap_2.
Qed.

(** Every non-empty set of [rdeps_copy] sits under a loaded module. *)
Definition keys_loaded (ml : ModuleList) (rc : dict (option string) (gset string)) : Prop :=
  ∀ s, rdeps_at rc (Some s) ≠ ∅ → s ∈ loaded_modules ml.

Lemma rdeps_of_keys_loaded (ml : ModuleList) (deps : dict string (list string)) :
  keys_loaded ml (rdeps_of ml deps).
Proof.
  unfold rdeps_of.
  assert (Hgen : ∀ (ds : dict string (list string)) r, keys_loaded ml r →
    keys_loaded ml (foldl (λ r '(nm, deplist),
      foldl (λ r md, dict_set (lookup ml md) ({[nm]} ∪ default ∅ (dict_get (lookup ml md) r)) r)
        r deplist) r ds)).
  { induction ds as [|[nm dl] ds IH]; intros r Hr; simpl; [done|].
    apply IH. clear IH. revert r Hr.
    induction dl as [|md dl IHd]; intros r Hr; simpl; [done|].
    apply IHd. intros s. rewrite rdeps_at_set.
    destruct (decide (Some s = lookup ml md)) as [Heq|]; [|apply Hr].
    intros _. by apply (lookup_loaded ml md). }
  apply Hgen. intros s. unfold rdeps_at. simpl. done.
Qed.

(** What one [remove_dep(nm)] does: it only appends to [modules], only
    shrinks the sets, and every name it takes out of a set is [nm] or a
    module it appended. *)
Definition removed_by (nm : option string) (st st' : RemoveState) : Prop :=
  (∃ add, mods st' = mods st ++ add) ∧
  (∀ k, rdeps_at (rcopy st') k ⊆ rdeps_at (rcopy st) k) ∧
  (∀ k r, r ∈ rdeps_at (rcopy st) k → r ∉ rdeps_at (rcopy st') k → nm = Some r ∨ r ∈ mods st').

Lemma removed_by_refl nm st : removed_by nm st st.
Proof. split; [exists []; by rewrite app_nil_r|]. split; [done|]. intros; done. Qed.

Lemma removed_by_trans nm st1 st2 st3 :
  removed_by nm st1 st2 → removed_by nm st2 st3 → removed_by nm st1 st3.
Proof.
  intros (( a1 & H1) & S1 & L1) ((a2 & H2) & S2 & L2). split; [|split].
  - exists (a1 ++ a2). by rewrite H2, H1, app_assoc.
  - intros k. etrans; [apply S2|apply S1].
  - intros k r Hr Hr'.
    destruct (decide (r ∈ rdeps_at (rcopy st2) k)) as [Hin|Hout].
    + by apply (L2 k r).
    + destruct (L1 k r Hr Hout) as [|Hm]; [by left|right].
      rewrite H2. set_solver.
Qed.

Lemma keys_loaded_sub ml (rc rc' : dict (option string) (gset string)) :
  (∀ k, rdeps_at rc' k ⊆ rdeps_at rc k) → keys_loaded ml rc → keys_loaded ml rc'.
Proof.
  intros Hs Hk s Hne. apply Hk. intros He. apply Hne. specialize (Hs (Some s)). set_solver.
Qed.

Lemma remove_dep_removed_by (d : nat) (ml : ModuleList) :
  ∀ nm st st', keys_loaded ml (rcopy st) → remove_dep d ml nm st = Ok st' → removed_by nm st st'.
Proof.
  induction d as [|d IHd]; intros nm st st' Hk H; [done|].
  cbn [remove_dep] in H. revert H. generalize (dict_keys (rcopy st)) as ks.
  intros ks. revert st Hk. induction ks as [|k ks IHks]; intros st Hk H.
  - injection H as <-. apply removed_by_refl.
  - set (ds := rdeps_at (rcopy st) k) in H.
    destruct (decide (ds = ∅)) as [Hds|Hds]; [by apply IHks|].
    set (st1 := mkRS (dict_set k (discard nm ds) (rcopy st)) (mods st)) in H.
    assert (R1 : removed_by nm st st1).
    { split; [exists []; by rewrite app_nil_r|]. split.
      - intros k'. simpl. rewrite rdeps_at_set.
        destruct (decide (k' = k)) as [->|]; [apply discard_sub|done].
      - intros k' r Hr Hr'. simpl in Hr'. rewrite rdeps_at_set in Hr'.
        destruct (decide (k' = k)) as [->|]; [|done].
        left. by apply (discard_lost nm ds r). }
    assert (Hk1 : keys_loaded ml (rcopy st1)) by (eapply keys_loaded_sub; [apply R1|done]).
    destruct (decide (discard nm ds = ∅)) as [Hempty|Hne].
    + apply bind_Ok in H as (st2 & H2 & H).
      pose proof (IHd k st1 st2 Hk1 H2) as R2.
      set (st3 := match k with
                  | Some s => if decide (s ∈ loaded_modules ml)
                              then mkRS (rcopy st2) (mods st2 ++ [s]) else st2
                  | None => st2 end) in H.
      assert (R3 : removed_by nm st st3).
      { destruct R1 as (_ & S1 & L1). destruct R2 as ((a2 & M2) & S2 & L2).
        assert (Hst3 : rcopy st3 = rcopy st2 ∧ mods st2 ⊆ mods st3 ∧
                       ∀ s, k = Some s → ds ≠ ∅ → s ∈ mods st3).
        { subst st3. destruct k as [s|].
          - destruct (decide (s ∈ loaded_modules ml)) as [Hl|Hl]; simpl.
            + split; [done|]. split; [set_solver|]. intros s' [= <-] _. set_solver.
            + split; [done|]. split; [done|]. intros s' [= <-] Hne'.
              exfalso. apply Hl. apply Hk. done.
          - split; [done|]. split; [done|]. done. }
        destruct Hst3 as (Hrc3 & Hm3 & Hk3).
        split; [|split].
        - subst st3. destruct k as [s|]; [destruct (decide _)|]; simpl;
            rewrite M2; simpl; [exists (a2 ++ [s]); by rewrite app_assoc| exists a2; done|exists a2; done].
        - intros k'. rewrite Hrc3. etrans; [apply S2|apply S1].
        - intros k' r Hr Hr'. rewrite Hrc3 in Hr'.
          destruct (decide (r ∈ rdeps_at (rcopy st1) k')) as [Hin|Hout].
          + destruct (L2 k' r Hin Hr') as [Hkr|Hm]; [|right; by apply Hm3].
            right. apply Hk3; done.
          + left. simpl in Hout. rewrite rdeps_at_set in Hout.
            destruct (decide (k' = k)) as [->|]; [|done].
            by apply (discard_lost nm ds r). }
      eapply removed_by_trans; [exact R3|].
      apply IHks; [|exact H].
      eapply keys_loaded_sub; [apply R3|done].
    + eapply removed_by_trans; [exact R1|]. by apply IHks.
Qed.

(** What the [for name in modules] loop does, from position [i] on. *)
Lemma remove_loop_removed (fuel : nat) (ml : ModuleList) :
  ∀ i st st', keys_loaded ml (rcopy st) → remove_loop fuel ml i st = Ok st' →
  (∃ add, mods st' = mods st ++ add) ∧
  (∀ k r, r ∈ rdeps_at (rcopy st) k → r ∉ rdeps_at (rcopy st') k →
     (∃ m, m ∈ mods st' ∧ lookup ml m = Some r) ∨ r ∈ mods st').
Proof.
  induction fuel as [|f IH]; intros i st st' Hk H; [done|]. cbn [remove_loop] in H.
  destruct (mods st !! i) as [nm|] eqn:Hi.
  - apply bind_Ok in H as (st1 & H1 & H).
    destruct (remove_dep_removed_by _ _ _ _ _ Hk H1) as ((a1 & M1) & S1 & L1).
    destruct (IH (S i) st1 st') as ((a2 & M2) & L2); [eapply keys_loaded_sub; done|done|].
    split; [exists (a1 ++ a2); by rewrite M2, M1, app_assoc|].
    intros k r Hr Hr'.
    assert (Hnm : nm ∈ mods st') by (rewrite M2, M1; apply elem_of_app; left;
                                     apply elem_of_app; left; by eapply list_elem_of_lookup_2).
    destruct (decide (r ∈ rdeps_at (rcopy st1) k)) as [Hin|Hout]; [by apply (L2 k r)|].
    destruct (L1 k r Hr Hout) as [Hl|Hm].
    + left. by exists nm.
    + right. rewrite M2. apply elem_of_app. by left.
  - injection H as <-. split; [exists []; by rewrite app_nil_r|]. done.
Qed.

Lemma in_use_check_Err (r : dict (option string) (gset string)) (l : list string) (n : string) :
  n ∈ l → rdeps_at r (Some n) ≠ ∅ → ∃ m, in_use_check r l = Err (InUse m) ∧ m ∈ l.
Proof.
  induction l as [|x l IH]; intros Hn Hne; [set_solver|]. simpl.
  destruct (decide (rdeps_at r (Some x) = ∅)) as [Hx|Hx].
  - apply elem_of_cons in Hn as [->|Hn]; [done|].
    destruct (IH Hn Hne) as (m & Hm & Hml). exists m. split; [done|set_solver].
  - exists x. split; [done|set_solver].
Qed.

Lemma closure_removed (ml : ModuleList) (rdeps : dict (option string) (gset string))
    (modules : list string) (st : RemoveState) :
  keys_loaded ml rdeps → closure ml rdeps modules = Ok st →
  ∀ k r, r ∈ rdeps_at rdeps k → r ∉ rdeps_at (rcopy st) k →
    (∃ m, m ∈ mods st ∧ lookup ml m = Some r) ∨ r ∈ mods st.
Proof.
  intros Hk H. unfold closure in H.
  by destruct (remove_loop_removed _ ml 0 (mkRS rdeps modules) st Hk H) as (_ & L).
Qed.

(** The reverse dependents of a module are the names whose
    predecessor list in [get_deps(all_modules)] contains one of its
    services, i.e. they come from [after]/[before] edges only.  If, once
    the transitive closure has run, a module [n] of the removal list
    still has such a dependent [r] that is neither in the list nor the
    module of a service in it, the planner fails with InUse.  In S5 as
    written ([requires] edges only) there are no reverse dependents:
    removing [content-backing] alone succeeds and removes only it, and
    removing [kvs] alone succeeds and removes only [kvs]. *)
Theorem solve_modules_remove_in_use :
  (∀ (db : TaskDB) (ml : ModuleList) (modules ms : list string)
     (deps : dict string (list string)) (st : RemoveState) (n r : string),
     removal_list db ml modules = Ok ms →
     get_deps db (all_modules db ml) = Ok deps →
     closure ml (rdeps_of ml deps) ms = Ok st →
     n ∈ mods st →
     r ∈ rdeps_at (rdeps_of ml deps) (Some n) →
     r ∉ mods st →
     Some r ∉ map (lookup ml) (mods st) →
     ∃ m, solve_modules_remove db ml modules = Err (InUse m) ∧ m ∈ mods st) ∧
  solve_modules_remove Scenario.db_s5 Scenario.ml_s5 ["content-backing"]
    = Ok (["content-backing"], [("content-backing", ∅)]) ∧
  solve_modules_remove Scenario.db_s5 Scenario.ml_s5 ["kvs"] = Ok (["kvs"], [("kvs", ∅)]).
Proof.
  split; [|split; vm_compute; reflexivity].
  intros db ml modules ms deps st n r Hms Hdeps Hcl Hn Hr Hrm Hlk.
  assert (Hlive : r ∈ rdeps_at (rcopy st) (Some n)).
  { destruct (decide (r ∈ rdeps_at (rcopy st) (Some n))) as [|Hout]; [done|].
    destruct (closure_removed _ _ _ _ (rdeps_of_keys_loaded ml deps) Hcl _ _ Hr Hout)
      as [(m & Hm & Hl)|]; [|done].
    exfalso. apply Hlk. rewrite <- Hl. by apply list_elem_of_fmap_2. }
  destruct (in_use_check_Err (rcopy st) (mods st) n Hn) as (m & Hm & Hml); [set_solver|].
  exists m. split; [|done].
  unfold solve_modules_remove. rewrite Hms. simpl. rewrite Hdeps. simpl.
  rewrite Hcl. simpl. by rewrite Hm.
Qed.

(** S5 with the shipped [after] edges: removing [content-backing] alone
    leaves [content] live, and the planner reports InUse. *)
Lemma solve_modules_remove_in_use_witness :
  ∃ m, solve_modules_remove Scenario.db_s5_after Scenario.ml_s5 ["content-backing"]
         = Err (InUse m) ∧ m ∈ ["content-backing"].
Proof.
  pose (deps := match get_deps Scenario.db_s5_after (all_modules Scenario.db_s5_after Scenario.ml_s5)
               with Ok d => d | Err _ => [] end).
  pose (st := match closure Scenario.ml_s5 (rdeps_of Scenario.ml_s5 deps) ["content-backing"]
             with Ok st => st | Err _ => mkRS [] [] end).
  assert (Hmods : mods st = ["content-backing"]) by (vm_compute; reflexivity).
  assert (H1 : removal_list Scenario.db_s5_after Scenario.ml_s5 ["content-backing"]
               = Ok ["content-backing"]) by (vm_compute; reflexivity).
  assert (H2 : get_deps Scenario.db_s5_after (all_modules Scenario.db_s5_after Scenario.ml_s5)
               = Ok deps) by (vm_compute; reflexivity).
  assert (H3 : closure Scenario.ml_s5 (rdeps_of Scenario.ml_s5 deps) ["content-backing"] = Ok st)
    by (vm_compute; reflexivity).
  assert (H4 : "content-backing" ∈ mods st) by (rewrite Hmods; left).
  assert (H5 : "content" ∈ rdeps_at (rdeps_of Scenario.ml_s5 deps) (Some "content-backing"))
    by (match goal with |- ?P => apply (bool_decide_eq_true_1 P) end; vm_compute; reflexivity).
  assert (H6 : "content" ∉ mods st) by (rewrite Hmods; match goal with |- ?P => apply (bool_decide_eq_true_1 P) end; vm_compute; reflexivity).
  assert (H7 : Some "content" ∉ map (lookup Scenario.ml_s5) (mods st))
    by (rewrite Hmods; match goal with |- ?P => apply (bool_decide_eq_true_1 P) end; vm_compute; reflexivity).
  destruct (proj1 solve_modules_remove_in_use Scenario.db_s5_after Scenario.ml_s5
              ["content-backing"] ["content-backing"] deps st "content-backing" "content"
              H1 H2 H3 H4 H5 H6 H7) as (m & Hm & Hin).
  exists m. split; [exact Hm|]. rewrite <- Hmods. exact Hin.
Defined.

(** S5 as written: [kvs] requires [content], [content] requires
    [content-backing], and no [after]/[before] edge; removing
    [content-backing] alone is not refused. *)
Lemma s5_requires_only_no_in_use :
  solve_modules_remove Scenario.db_s5 Scenario.ml_s5 ["content-backing"]
    = Ok (["content-backing"], [("content-backing", ∅)]).
Proof. vm_compute. reflexivity. Qed.

(** C7: the InUse check misses a module named by one of its services.
    [remove_dep] resolves each name with [mlist.lookup(name)], but the
    check reads [rdeps_copy[name]] under the name as given.  Naming
    [content-backing], the planner removes [content-sqlite] although
    [content], which stays loaded, is ordered after it; naming
    [content-sqlite] itself is refused with InUse. *)
Theorem solve_modules_remove_alias_in_use_missed :
  lookup Scenario.ml_alias "content-backing" = Some "content-sqlite" ∧
  get_deps Scenario.db_alias (all_modules Scenario.db_alias Scenario.ml_alias)
    = Ok [("content-sqlite", []); ("content", ["content-sqlite"])] ∧
  solve_modules_remove Scenario.db_alias Scenario.ml_alias ["content-backing"]
    = Ok (["content-sqlite"], [("content-sqlite", ∅)]) ∧
  solve_modules_remove Scenario.db_alias Scenario.ml_alias ["content-sqlite"]
    = Err (InUse "content-sqlite").
Proof. split_and!; vm_compute; reflexivity. Qed.

(* ------------------------------------------------------------------ *)
(** ** Executor *)

Lemma NoDup_cnt (l : list string) : NoDup l ↔ ∀ x, cnt l x ≤ 1.
Proof. rewrite NoDup_ListNoDup. apply NoDup_count_occ. Qed.

Lemma list_remove_nodup (f : string) (l : list string) : NoDup l → NoDup (list_remove f l).
Proof.
  rewrite !NoDup_cnt. intros H x. specialize (H x).
  pose proof (list_remove_cnt_le f x l). lia.
Qed.

Lemma list_remove_elem (f x : string) (l : list string) :
  NoDup l → x ∈ list_remove f l ↔ x ∈ l ∧ x ≠ f.
Proof.
  intros Hnd. rewrite NoDup_cnt in Hnd. specialize (Hnd x).
  rewrite !cnt_elem, list_remove_cnt.
  destruct (decide (f = x)) as [->|Hne]; split; try lia; naive_solver.
Qed.

Lemma dict_get_elem {K V} `{EqDecision K} (k : K) (v : V) (d : dict K V) :
  dict_get k d = Some v → (k, v) ∈ d.
Proof.
  induction d as [|[k' v'] d IH]; simpl; [done|].
  case_decide as Hk; [intros [= <-]; subst; left|intros; right; auto].
Qed.

Lemma preds_nodes (deps : dict string (list string)) (x p : string) :
  p ∈ preds deps x → p ∈ nodes deps.
Proof.
  unfold preds, nodes. destruct (dict_get x deps) as [l|] eqn:E; simpl; [|set_solver].
  intros Hp. apply elem_of_remove_dups, elem_of_app. right.
  apply dict_get_elem in E.
  apply list_elem_of_In, in_concat. exists l. split.
  - apply in_map_iff. exists (x, l). split; [done|]. by apply list_elem_of_In.
  - by apply list_elem_of_In.
Qed.

Lemma get_ready_spec (deps : dict string (list string)) (st : ExecState) (x : string) :
  x ∈ get_ready deps st ↔
    x ∈ nodes deps ∧ x ∉ passed st ∧ (∀ p, p ∈ preds deps x → p ∈ finished st).
Proof. unfold get_ready. rewrite list_elem_of_filter, Forall_forall. naive_solver. Qed.

Lemma get_ready_nodup (deps : dict string (list string)) (st : ExecState) :
  NoDup (get_ready deps st).
Proof. apply NoDup_filter, NoDup_remove_dups. Qed.

Lemma is_active_ext (deps : dict string (list string)) (st st' : ExecState) :
  passed st' = passed st → finished st' = finished st → is_active deps st' = is_active deps st.
Proof. intros Hp Hf. unfold is_active, get_ready. by rewrite Hp, Hf. Qed.

Lemma mapM_get_name_id (db : TaskDB) (l : list string) :
  (∀ x, x ∈ l → get_name db x = Ok x) → mapM (get_name db) l = Ok l.
Proof.
  intros H. apply mapM_res_Ok. induction l as [|x l IH]; constructor.
  - apply H. set_solver.
  - apply IH. intros y Hy. apply H. set_solver.
Qed.

Lemma submit_new (st : ExecState) (n : string) :
  n ∉ started st →
  submit st n = mkES (es_pc st) (now st) (passed st) (finished st) (started st ++ [n])
                  (futures st ++ [n]) (starttime st) (endtime st) (result st) (exitcode st) (stderr st).
Proof. intros H. unfold submit. by rewrite decide_False. Qed.

Lemma submit_fold (l : list string) :
  ∀ st, (∀ x, x ∈ l → x ∉ started st) → NoDup l →
  foldl submit st l = mkES (es_pc st) (now st) (passed st) (finished st) (started st ++ l)
                        (futures st ++ l) (starttime st) (endtime st) (result st) (exitcode st) (stderr st).
Proof.
  induction l as [|x l IH]; intros st Hl Hnd; cbn [foldl].
  - rewrite !app_nil_r. by destruct st.
  - apply NoDup_cons in Hnd as [Hx Hnd].
    rewrite submit_new by (apply Hl; set_solver).
    rewrite IH.
    + simpl. by rewrite <- !app_assoc.
    + simpl. intros y Hy. rewrite elem_of_app, list_elem_of_singleton.
      intros [Hy'| ->].
      * apply (Hl y); [set_solver|done].
      * done.
    + done.
Qed.

Ltac es_simpl := cbn [es_pc now passed finished started futures starttime endtime result
                      exitcode stderr tick worker_start worker_end set_pc] in *.

Lemma run_inv_init (deps : dict string (list string)) (e0 : nat) :
  run_inv deps e0 (init_state e0).
Proof.
  constructor; cbn [init_state es_pc now passed finished started futures starttime
                    endtime result exitcode stderr].
  - done.
  - intros [?|[?|?]]; done.
  - done.
  - constructor.
  - set_solver.
  - constructor.
  - set_solver.
  - done.
  - set_solver.
  - constructor.
  - intros x [? Hx]. by rewrite lookup_empty in Hx.
  - intros x [? Hx]. by rewrite lookup_empty in Hx.
  - intros x. rewrite !lookup_empty. done.
  - intros x t Hx. by rewrite lookup_empty in Hx.
  - set_solver.
  - set_solver.
  - intros s ts p Hs. by rewrite lookup_empty in Hs.
  - intros x m. split; [set_solver|]. intros [? _]. set_solver.
  - constructor.
  - by rewrite decide_True.
  - set_solver.
Qed.

Lemma run_inv_set_pc (deps : dict string (list string)) (e0 : nat) (st : ExecState) (p : pc) :
  run_inv deps e0 st →
  (∀ e, p = PFail e → (e = CycleError ∧ ¬ acyclic deps) ∨
                      (∃ x m, e = Uncaught m ∧ result st !! x = Some (Escape m))) →
  (p = PTop ∨ p = PWait ∨ p = PDone → acyclic deps) →
  (p = PDone → is_active deps st = false) →
  run_inv deps e0 (set_pc p st).
Proof.
  intros [] Hf Ha Hd. by constructor; es_simpl.
Qed.

Lemma run_inv_tick (deps : dict string (list string)) (e0 : nat) (st : ExecState) (k : nat) :
  run_inv deps e0 st → run_inv deps e0 (tick k st).
Proof.
  intros [Hfail Hacyc Hdone Hpnd Hpn Hfnd Hfp Hst Hfut Hfutnd Hss Hes Hre Hen Hpp Hfr Hsp Hse
          Hsend Hex Hfc].
  constructor; es_simpl; try assumption.
  - intros x t Ht. specialize (Hen x t Ht). lia.
Qed.

Lemma run_inv_worker_start (deps : dict string (list string)) (e0 : nat) (st : ExecState) (f : string) :
  run_inv deps e0 st → f ∈ started st → starttime st !! f = None →
  run_inv deps e0 (worker_start f st).
Proof.
  intros [Hfail Hacyc Hdone Hpnd Hpn Hfnd Hfp Hst Hfut Hfutnd Hss Hes Hre Hen Hpp Hfr Hsp Hse
          Hsend Hex Hfc] Hf Hnone.
  constructor; es_simpl; try assumption.
  - intros x. destruct (decide (x = f)) as [->|Hne]; [done|].
    rewrite lookup_insert_ne by congruence. apply Hss.
  - intros x Hx. destruct (decide (x = f)) as [->|Hne].
    + rewrite lookup_insert_eq. by eexists.
    + rewrite lookup_insert_ne by congruence. by apply Hes.
  - intros s ts p Hs Hp. destruct (decide (s = f)) as [->|Hne].
    + rewrite lookup_insert_eq in Hs. injection Hs as <-.
      rewrite Hst in Hf. pose proof (Hpp f p Hf Hp) as Hpf.
      destruct (proj1 (Hre p) (Hfr p Hpf)) as [te Hte].
      exists te. split; [done|]. by apply (Hen p).
    + rewrite lookup_insert_ne in Hs by congruence. by apply (Hsp s).
Qed.

Lemma run_inv_worker_end (deps : dict string (list string)) (e0 : nat) (st : ExecState)
    (f : string) (o : outcome) :
  run_inv deps e0 st → is_Some (starttime st !! f) → endtime st !! f = None →
  run_inv deps e0 (worker_end f o st).
Proof.
  intros [Hfail Hacyc Hdone Hpnd Hpn Hfnd Hfp Hst Hfut Hfutnd Hss Hes Hre Hen Hpp Hfr Hsp Hse
          Hsend Hex Hfc] Hs Hnone.
  assert (Hnf : f ∉ finished st).
  { intros Hf. destruct (proj1 (Hre f) (Hfr f Hf)) as [? Hx]. congruence. }
  constructor; es_simpl; try assumption.
  - intros e He. destruct (Hfail e He) as [?|(x & m & -> & Hx)]; [by left|right].
    exists x, m. split; [done|].
    assert (x ≠ f).
    { intros ->. destruct (proj1 (Hre f) (mk_is_Some _ _ Hx)) as [? ?]. congruence. }
    by rewrite lookup_insert_ne.
  - intros x. destruct (decide (x = f)) as [->|Hne]; [done|].
    rewrite lookup_insert_ne by congruence. apply Hes.
  - intros x. destruct (decide (x = f)) as [->|Hne].
    + rewrite !lookup_insert_eq. split; intros; by eexists.
    + rewrite !lookup_insert_ne by congruence. apply Hre.
  - intros x t. destruct (decide (x = f)) as [->|Hne].
    + rewrite lookup_insert_eq. intros [= <-]. done.
    + rewrite lookup_insert_ne by congruence. apply Hen.
  - intros x Hx. assert (x ≠ f) by congruence.
    rewrite lookup_insert_ne by congruence. by apply Hfr.
  - intros s ts p Hs' Hp. destruct (Hsp s ts p Hs' Hp) as (te & Hte & Hle).
    exists te. split; [|done]. rewrite lookup_insert_ne; [done|]. congruence.
  - intros x m. destruct (decide (x = f)) as [->|Hne].
    + split; [intros Hx; apply Hse in Hx as [? _]; done|intros [? _]; done].
    + rewrite lookup_insert_ne by congruence. apply Hse.
  - intros x o' Hx. assert (x ≠ f) by (intros ->; done).
    rewrite lookup_insert_ne by congruence. by apply Hfc.
Qed.

Lemma run_inv_collect (deps : dict string (list string)) (e0 : nat) (st : ExecState) (f : string)
    (o : outcome) :
  run_inv deps e0 st → es_pc st = PWait → f ∈ futures st → result st !! f = Some o →
  caught o = true →
  run_inv deps e0 (collect st f) ∧ es_pc (collect st f) = PWait ∧
  futures (collect st f) = list_remove f (futures st) ∧ result (collect st f) = result st ∧
  finished (collect st f) = finished st ++ [f].
Proof.
  intros [Hfail Hacyc Hdone Hpnd Hpn Hfnd Hfp Hst Hfut Hfutnd Hss Hes Hre Hen Hpp Hfr Hsp Hse
          Hsend Hex Hfc] Hpc Hf Ho Hc.
  destruct (proj1 (Hfut f) Hf) as [Hfp' Hff].
  assert (Hfnd' : NoDup (finished st ++ [f])).
  { apply NoDup_app. split; [done|]. split; [|apply NoDup_singleton].
    intros x Hx ->%list_elem_of_singleton. done. }
  assert (Hfut' : ∀ x, x ∈ list_remove f (futures st) ↔ x ∈ passed st ∧ x ∉ finished st ++ [f]).
  { intros x. rewrite list_remove_elem by done. rewrite Hfut, elem_of_app, list_elem_of_singleton.
    naive_solver. }
  assert (Hfc' : ∀ x o', x ∈ finished st ++ [f] → result st !! x = Some o' → caught o' = true).
  { intros x o' Hx Hr. apply elem_of_app in Hx as [Hx| ->%list_elem_of_singleton];
      [by apply (Hfc x)|]. rewrite Ho in Hr. by injection Hr as <-. }
  unfold collect. rewrite Hpc, Ho.
  destruct o as [|m|m]; [| |discriminate]; cbv iota beta zeta; rewrite decide_True by done;
    cbn [es_pc futures result finished]; rewrite <- Hpc.
  - split; [|done].
    constructor; es_simpl; try assumption.
    + intros He. congruence.
    + intros x. rewrite elem_of_app, list_elem_of_singleton. intros [Hx| ->]; [by apply Hfp|done].
    + by apply list_remove_nodup.
    + intros s p Hs Hp. apply elem_of_app. left. by apply (Hpp s).
    + intros x. rewrite elem_of_app, list_elem_of_singleton. intros [Hx| ->]; [by apply Hfr|].
      rewrite Ho. by eexists.
    + intros x m. rewrite Hse, elem_of_app, list_elem_of_singleton. split; [naive_solver|].
      intros [[Hx| ->] Hr]; [done|]. congruence.
  - split; [|done].
    constructor; es_simpl; try assumption.
    + intros He. congruence.
    + intros x. rewrite elem_of_app, list_elem_of_singleton. intros [Hx| ->]; [by apply Hfp|done].
    + by apply list_remove_nodup.
    + intros s p Hs Hp. apply elem_of_app. left. by apply (Hpp s).
    + intros x. rewrite elem_of_app, list_elem_of_singleton. intros [Hx| ->]; [by apply Hfr|].
      rewrite Ho. by eexists.
    + intros x m'. rewrite elem_of_app, list_elem_of_singleton, Hse, elem_of_app,
        list_elem_of_singleton. split.
      * intros [[Hx Hr]|Heq]; [by split; [left|]|].
        injection Heq as -> ->. split; [by right|done].
      * intros [[Hx| ->] Hr]; [by left|]. right. rewrite Ho in Hr. by injection Hr as ->.
    + rewrite map_app. apply NoDup_app. split; [done|]. split; [|apply NoDup_singleton].
      intros x Hx ->%list_elem_of_singleton. apply list_elem_of_fmap in Hx as ([y m'] & Hy & Hin).
      simpl in Hy. subst y. apply Hse in Hin as [? _]. done.
    + rewrite decide_False; [done|]. intros Heq. by apply app_nil in Heq as [_ ?].
Qed.

(** A BaseException outside Exception leaves [run()]. *)
Lemma run_inv_collect_escape (deps : dict string (list string)) (e0 : nat) (st : ExecState)
    (f m : string) :
  run_inv deps e0 st → es_pc st = PWait → result st !! f = Some (Escape m) →
  run_inv deps e0 (collect st f) ∧ es_pc (collect st f) = PFail (Uncaught m) ∧
  result (collect st f) = result st.
Proof.
  intros Hi Hpc Ho. unfold collect. rewrite Hpc, Ho. cbv iota beta.
  split; [|done]. apply run_inv_set_pc; [done| |intros [?|[?|?]]; discriminate|intros [=]].
  intros e [= <-]. right. by exists f, m.
Qed.

Lemma collect_fail_fold (st : ExecState) (e : error) (l : list string) :
  es_pc st = PFail e → foldl collect st l = st.
Proof.
  intros Hpc. induction l as [|f l IH]; cbn [foldl]; [done|].
  assert (Hc : collect st f = st) by (unfold collect; by rewrite Hpc).
  by rewrite Hc.
Qed.

Lemma run_inv_collect_fold (deps : dict string (list string)) (e0 : nat) (l : list string) :
  ∀ st, run_inv deps e0 st → es_pc st = PWait → NoDup l →
  (∀ f, f ∈ l → f ∈ futures st ∧ is_Some (result st !! f)) →
  run_inv deps e0 (foldl collect st l) ∧ result (foldl collect st l) = result st ∧
  ((es_pc (foldl collect st l) = PWait ∧ finished (foldl collect st l) = finished st ++ l) ∨
   (∃ x m, x ∈ l ∧ result st !! x = Some (Escape m) ∧
           es_pc (foldl collect st l) = PFail (Uncaught m))).
Proof.
  induction l as [|f l IH]; intros st Hi Hpc Hnd Hl; cbn [foldl].
  { split; [done|]. split; [done|]. left. by rewrite app_nil_r. }
  apply NoDup_cons in Hnd as [Hfl Hnd].
  destruct (Hl f) as [Hf [o Ho]]; [set_solver|].
  destruct (caught o) eqn:Hc.
  - destruct (run_inv_collect _ _ _ _ _ Hi Hpc Hf Ho Hc) as (Hi' & Hpc' & Hfut' & Hres' & Hfin').
    destruct (IH (collect st f)) as (Hi'' & Hres'' & Hcase); try done.
    { intros g Hg. assert (g ≠ f) by (intros ->; done).
      destruct (Hl g) as [Hg1 Hg2]; [set_solver|].
      rewrite Hfut', Hres'. split; [|done].
      apply list_remove_elem; [apply (inv_futures_nodup _ _ _ Hi)|done]. }
    split; [done|]. split; [by rewrite Hres'', Hres'|].
    destruct Hcase as [[Hp Hfin]|(x & m & Hx & Hxr & Hp)].
    + left. split; [done|]. by rewrite Hfin, Hfin', <- app_assoc.
    + right. exists x, m. rewrite Hres' in Hxr. split; [set_solver|done].
  - destruct o as [| |m]; [discriminate|discriminate|].
    destruct (run_inv_collect_escape _ _ _ _ _ Hi Hpc Ho) as (Hi' & Hpc' & Hres').
    rewrite (collect_fail_fold _ _ l Hpc').
    split; [done|]. split; [done|]. right. exists f, m. split; [set_solver|done].
Qed.

Lemma run_inv_main_collect (deps : dict string (list string)) (e0 : nat) (st : ExecState) :
  run_inv deps e0 st → es_pc st = PWait → run_inv deps e0 (main_collect st).
Proof.
  intros Hi Hpc. unfold main_collect. cbv zeta.
  destruct (run_inv_collect_fold deps e0 (filter (λ f, is_Some (result st !! f)) (futures st)) st
              Hi Hpc) as (Hi' & _ & [[Hpc' _]|(x & m & _ & _ & Hpc')]).
  - apply NoDup_filter, (inv_futures_nodup _ _ _ Hi).
  - intros f Hf. apply list_elem_of_filter in Hf. naive_solver.
  - rewrite Hpc'. apply run_inv_set_pc; [done|intros ? [=]| |intros [=]].
    intros _. apply (inv_acyclic _ _ _ Hi'). by right; left.
  - by rewrite Hpc'.
Qed.

Lemma run_inv_main_top (db : TaskDB) (deps : dict string (list string)) (e0 : nat) (st : ExecState) :
  (∀ x, x ∈ nodes deps → get_name db x = Ok x) →
  run_inv deps e0 st → es_pc st = PTop → run_inv deps e0 (main_top db deps st).
Proof.
  intros Hid Hi Hpc. unfold main_top.
  destruct (is_active deps st) eqn:Ha.
  - cbv zeta.
    pose proof (get_ready_spec deps st) as Hrs.
    rewrite mapM_get_name_id by (intros x Hx; apply Hid, Hrs, Hx).
    rewrite submit_fold; cbn [es_pc now passed finished started futures starttime endtime result
                              exitcode stderr].
    2: { intros x Hx. rewrite (inv_started _ _ _ Hi). apply Hrs in Hx. naive_solver. }
    2: apply get_ready_nodup.
    destruct Hi as [Hfail Hacyc Hdone Hpnd Hpn Hfnd Hfp Hst Hfut Hfutnd Hss Hes Hre Hen Hpp Hfr Hsp
                    Hse Hsend Hex Hfc].
    constructor; cbn [es_pc now passed finished started futures starttime endtime result
                      exitcode stderr]; try assumption.
    + intros e He. congruence.
    + intros _. apply Hacyc. by left.
    + intros He. congruence.
    + apply NoDup_app. split; [done|]. split; [|apply get_ready_nodup].
      intros x Hx Hx'. apply Hrs in Hx'. naive_solver.
    + intros x. rewrite elem_of_app. intros [Hx|Hx]; [by apply Hpn|by apply Hrs].
    + intros x Hx. apply elem_of_app. left. by apply Hfp.
    + by rewrite Hst.
    + intros x. rewrite !elem_of_app, Hfut. split.
      * intros [[Hx Hnf]|Hx]; [split; [by left|done]|].
        pose proof (proj1 (Hrs x) Hx) as (_ & Hnp & _). split; [by right|]. intros Hf. by apply Hnp, Hfp.
      * intros [[Hx|Hx] Hnf]; [by left|by right].
    + apply NoDup_app. split; [done|]. split; [|apply get_ready_nodup].
      intros x Hx Hx'. apply Hrs in Hx'. apply Hfut in Hx. naive_solver.
    + intros x Hx. apply elem_of_app. left. by apply Hss.
    + intros s p. rewrite elem_of_app. intros [Hs|Hs]; [by apply Hpp|].
      apply Hrs in Hs as (_ & _ & Hs). apply Hs.
  - apply run_inv_set_pc; [done|done| |done].
    intros _. apply (inv_acyclic _ _ _ Hi). by left.
Qed.

Lemma run_inv_step (db : TaskDB) (deps : dict string (list string)) (e0 : nat) (st st' : ExecState) :
  (∀ x, x ∈ nodes deps → get_name db x = Ok x) →
  run_inv deps e0 st → step db deps st st' → run_inv deps e0 st'.
Proof.
  intros Hid Hi Hs.
  destruct Hs as [st Hpc Hac|st Hpc Hnac|st Hpc|st Hpc Hw|st f Hf Hn|st f o Hs Hn|st k].
  - apply run_inv_set_pc; [done|intros ? [=]|intros _; done|intros [=]].
  - apply run_inv_set_pc; [done| |intros [?|[?|?]]; discriminate|intros [=]].
    intros e [= <-]. left. by split.
  - by apply run_inv_main_top.
  - by apply run_inv_main_collect.
  - by apply run_inv_worker_start.
  - by apply run_inv_worker_end.
  - by apply run_inv_tick.
Qed.

Lemma run_inv_reachable (db : TaskDB) (deps : dict string (list string)) (e0 : nat) (st : ExecState) :
  (∀ x, x ∈ nodes deps → get_name db x = Ok x) →
  reachable db deps e0 st → run_inv deps e0 st.
Proof.
  intros Hid H. unfold reachable in H. revert st H.
  apply rtc_ind_r; [apply run_inv_init|].
  intros st st' _ Hs Hi. by apply (run_inv_step db deps e0 st st').
Qed.

(** Once the loop has ended, every node of the graph was handed out and
    marked done. *)
Lemma run_inv_done_all (deps : dict string (list string)) (e0 : nat) (st : ExecState) :
  run_inv deps e0 st → es_pc st = PDone → ∀ x, x ∈ nodes deps → x ∈ finished st.
Proof.
  intros Hi Hpc.
  pose proof (inv_done _ _ _ Hi Hpc) as Hna. unfold is_active in Hna.
  apply orb_false_iff in Hna as [Hlen Hready].
  apply bool_decide_eq_false in Hlen, Hready. apply dec_stable in Hready.
  assert (Hpf : ∀ x, x ∈ passed st → x ∈ finished st).
  { intros x Hx. apply list_elem_of_In.
    apply (@NoDup_length_incl _ (finished st) (passed st)).
    - apply NoDup_ListNoDup, (inv_finished_nodup _ _ _ Hi).
    - lia.
    - intros y Hy. apply list_elem_of_In, (inv_finished_passed _ _ _ Hi), list_elem_of_In, Hy.
    - by apply list_elem_of_In. }
  destruct (inv_acyclic _ _ _ Hi) as (ord & Hall & Hord); [by right; right|].
  assert (Hpassed : ∀ i x, ord !! i = Some x → x ∈ nodes deps → x ∈ passed st).
  { intros i. induction i as [i IH] using (well_founded_induction lt_wf).
    intros x Hx Hn. destruct (decide (x ∈ passed st)) as [|Hnp]; [done|exfalso].
    assert (Hr : x ∈ get_ready deps st).
    { apply get_ready_spec. split; [done|]. split; [done|].
      intros p Hp. destruct (Hord i x p Hx Hp) as (j & Hj & Hjp).
      apply Hpf, (IH j Hj p Hjp), (preds_nodes deps x p Hp). }
    rewrite Hready in Hr. set_solver. }
  intros x Hx. destruct (list_elem_of_lookup_1 ord x (Hall x Hx)) as (i & Hi').
  by apply Hpf, (Hpassed i).
Qed.

(** *** Progress of the loop *)

Lemma run_inv_rtc (db : TaskDB) (deps : dict string (list string)) (e0 : nat) (st st' : ExecState) :
  (∀ x, x ∈ nodes deps → get_name db x = Ok x) →
  run_inv deps e0 st → rtc (step db deps) st st' → run_inv deps e0 st'.
Proof.
  intros Hid Hi Hr. induction Hr as [st|st st1 st' Hs _ IH]; [done|].
  apply IH. by apply (run_inv_step db deps e0 st st1).
Qed.

(** Once [run()] has left the loop with an exception, the workers go
    on but nothing more is handed out or marked done. *)
Lemma fail_stays (db : TaskDB) (deps : dict string (list string)) (st st' : ExecState) (e : error) :
  es_pc st = PFail e → rtc (step db deps) st st' →
  es_pc st' = PFail e ∧ started st' = started st ∧ finished st' = finished st.
Proof.
  intros Hpc Hr. revert Hpc. induction Hr as [st|st st1 st' Hs _ IH]; intros Hpc; [done|].
  assert (H1 : es_pc st1 = PFail e ∧ started st1 = started st ∧ finished st1 = finished st).
  { destruct Hs as [s Hp|s Hp|s Hp|s Hp _|s f _ _|s f o _ _|s k]; try congruence;
      cbn [worker_start worker_end tick es_pc started finished]; done. }
  destruct H1 as (H1 & H2 & H3). destruct (IH H1) as (H4 & H5 & H6).
  split_and!; congruence.
Qed.

(** A running task can be brought to its end, with outcome [out f]. *)
Lemma finish_one (db : TaskDB) (deps : dict string (list string)) (e0 : nat)
    (out : string → outcome) (st : ExecState) (f : string) :
  run_inv deps e0 st → f ∈ started st →
  ∃ st', rtc (step db deps) st st' ∧ run_inv deps e0 st' ∧
    es_pc st' = es_pc st ∧ passed st' = passed st ∧ finished st' = finished st ∧
    futures st' = futures st ∧ started st' = started st ∧
    is_Some (result st' !! f) ∧
    (∀ x o, result st !! x = Some o → result st' !! x = Some o) ∧
    (∀ x o, result st' !! x = Some o → result st !! x = Some o ∨ o = out x).
Proof.
  intros Hi Hf.
  destruct (result st !! f) as [o|] eqn:Hr.
  { exists st. split_and!; try done; first [apply rtc_refl|by eexists|intros x o' Hx; by left]. }
  assert (Hend : endtime st !! f = None).
  { destruct (endtime st !! f) eqn:He; [|done].
    destruct (proj2 (inv_result_end _ _ _ Hi f) (mk_is_Some _ _ He)) as [? Hx]. congruence. }
  assert (Hend_ok : ∀ s, run_inv deps e0 s → is_Some (starttime s !! f) → endtime s !! f = None →
     result s !! f = None →
     rtc (step db deps) s (worker_end f (out f) s) ∧ run_inv deps e0 (worker_end f (out f) s) ∧
     is_Some (result (worker_end f (out f) s) !! f) ∧
     (∀ x o, result s !! x = Some o → result (worker_end f (out f) s) !! x = Some o) ∧
     (∀ x o, result (worker_end f (out f) s) !! x = Some o → result s !! x = Some o ∨ o = out x)).
  { intros s Hs Hst Hen Hrs. split; [apply rtc_once; by apply step_end|].
    split; [by apply run_inv_worker_end|]. cbn [result worker_end].
    split; [rewrite lookup_insert_eq; by eexists|]. split.
    - intros x o Hx. assert (x ≠ f) by (intros ->; congruence). by rewrite lookup_insert_ne.
    - intros x o. destruct (decide (x = f)) as [->|Hne].
      + rewrite lookup_insert_eq. intros [= <-]. by right.
      + rewrite lookup_insert_ne by congruence. by left. }
  destruct (starttime st !! f) eqn:Hs.
  - destruct (Hend_ok st Hi ltac:(by eexists) Hend Hr) as (Hrt & Hi' & Hres & Hmono & Hout).
    exists (worker_end f (out f) st). split_and!; done.
  - assert (Hi0 : run_inv deps e0 (worker_start f st)) by (by apply run_inv_worker_start).
    destruct (Hend_ok (worker_start f st) Hi0) as (Hrt & Hi' & Hres & Hmono & Hout).
    + cbn [worker_start starttime]. rewrite lookup_insert_eq. by eexists.
    + done.
    + done.
    + exists (worker_end f (out f) (worker_start f st)).
      split_and!; try done. eapply rtc_l; [by apply step_start|exact Hrt].
Qed.

Lemma finish_list (db : TaskDB) (deps : dict string (list string)) (e0 : nat)
    (out : string → outcome) (l : list string) :
  ∀ st, run_inv deps e0 st → (∀ f, f ∈ l → f ∈ started st) →
  ∃ st', rtc (step db deps) st st' ∧ run_inv deps e0 st' ∧
    es_pc st' = es_pc st ∧ passed st' = passed st ∧ finished st' = finished st ∧
    futures st' = futures st ∧ started st' = started st ∧
    (∀ f, f ∈ l → is_Some (result st' !! f)) ∧
    (∀ x o, result st !! x = Some o → result st' !! x = Some o) ∧
    (∀ x o, result st' !! x = Some o → result st !! x = Some o ∨ o = out x).
Proof.
  induction l as [|f l IH]; intros st Hi Hl.
  { exists st. split_and!; try done; first [apply rtc_refl|set_solver|intros x o Hx; by left]. }
  destruct (finish_one db deps e0 out st f Hi) as
    (st1 & Hr1 & Hi1 & Hp1 & Hpa1 & Hf1 & Hfu1 & Hs1 & Hres1 & Hm1 & Ho1);
    [apply Hl; set_solver|].
  destruct (IH st1 Hi1) as (st2 & Hr2 & Hi2 & Hp2 & Hpa2 & Hf2 & Hfu2 & Hs2 & Hres2 & Hm2 & Ho2).
  { intros g Hg. rewrite Hs1. apply Hl. set_solver. }
  exists st2. split_and!.
  - by eapply rtc_trans.
  - done.
  - congruence.
  - congruence.
  - congruence.
  - congruence.
  - congruence.
  - intros g Hg. apply elem_of_cons in Hg as [->|Hg]; [|by apply Hres2].
    destruct Hres1 as [o Ho]. exists o. by apply Hm2.
  - intros x o Hx. by apply Hm2, Hm1.
  - intros x o Hx. destruct (Ho2 x o Hx) as [H|H]; [|by right]. by apply Ho1.
Qed.

(** When every future has a result that [except Exception] catches,
    one pass of [for future in done] marks them all done. *)
Lemma collect_all (deps : dict string (list string)) (e0 : nat) (st : ExecState) :
  run_inv deps e0 st → es_pc st = PWait →
  (∀ f, f ∈ futures st → is_Some (result st !! f)) →
  (∀ x o, result st !! x = Some o → caught o = true) →
  es_pc (main_collect st) = PTop ∧ finished (main_collect st) = finished st ++ futures st ∧
  result (main_collect st) = result st.
Proof.
  intros Hi Hpc Hall Hc. unfold main_collect. cbv zeta.
  assert (Hfl : ∀ l : list string, (∀ f, f ∈ l → is_Some (result st !! f)) →
                filter (λ f, is_Some (result st !! f)) l = l).
  { induction l as [|g l IHl]; intros Hl; [done|].
    rewrite list.filter_cons, decide_True by (apply Hl; set_solver). f_equal.
    apply IHl. intros h Hh. apply Hl. set_solver. }
  rewrite (Hfl _ Hall).
  destruct (run_inv_collect_fold deps e0 (futures st) st Hi Hpc) as
    (_ & Hres & [[Hpc' Hfin]|(x & m & _ & Hx & _)]).
  - apply (inv_futures_nodup _ _ _ Hi).
  - intros f Hf. split; [done|by apply Hall].
  - rewrite Hpc'. cbn [set_pc es_pc finished result]. done.
  - by specialize (Hc x _ Hx).
Qed.

Lemma main_top_active (db : TaskDB) (deps : dict string (list string)) (e0 : nat) (st : ExecState) :
  (∀ x, x ∈ nodes deps → get_name db x = Ok x) →
  run_inv deps e0 st → is_active deps st = true →
  es_pc (main_top db deps st) = PWait ∧ finished (main_top db deps st) = finished st ∧
  passed (main_top db deps st) = passed st ++ get_ready deps st ∧
  result (main_top db deps st) = result st.
Proof.
  intros Hid Hi Ha. unfold main_top. rewrite Ha. cbv zeta.
  pose proof (get_ready_spec deps st) as Hrs.
  rewrite mapM_get_name_id by (intros x Hx; apply Hid, Hrs, Hx).
  rewrite submit_fold; [split_and!; reflexivity| |apply get_ready_nodup].
  intros x Hx. rewrite (inv_started _ _ _ Hi). apply Hrs in Hx. naive_solver.
Qed.

Lemma filter_not_in_mono (l A B : list string) :
  (∀ x, x ∈ A → x ∈ B) →
  length (filter (λ x, x ∉ B) l) ≤ length (filter (λ x, x ∉ A) l).
Proof.
  intros H. induction l as [|z l IH]; [done|].
  rewrite !list.filter_cons. repeat case_decide; cbn beta in *; simpl; try lia.
  exfalso. naive_solver.
Qed.

Lemma filter_not_in_strict (l A B : list string) (y : string) :
  (∀ x, x ∈ A → x ∈ B) → y ∈ l → y ∈ B → y ∉ A →
  length (filter (λ x, x ∉ B) l) < length (filter (λ x, x ∉ A) l).
Proof.
  intros H Hy HB HA. induction l as [|z l IH]; [set_solver|].
  pose proof (filter_not_in_mono l A B H) as Hm.
  rewrite !list.filter_cons. apply elem_of_cons in Hy as [->|Hy].
  - rewrite decide_False by (intros Hn; by apply Hn). rewrite decide_True by done. simpl. lia.
  - specialize (IH Hy). repeat case_decide; cbn beta in *; simpl; try lia.
    exfalso. naive_solver.
Qed.

(** From the wait, the running tasks can end with outcomes [out] and be
    collected, back at the top of the loop. *)
Lemma wait_to_top (db : TaskDB) (deps : dict string (list string)) (e0 : nat)
    (out : string → outcome) (st : ExecState) :
  (∀ x, caught (out x) = true) →
  run_inv deps e0 st → es_pc st = PWait → (∀ x o, result st !! x = Some o → caught o = true) →
  ∃ st', rtc (step db deps) st st' ∧ run_inv deps e0 st' ∧ es_pc st' = PTop ∧
    finished st' = finished st ++ futures st ∧
    (∀ x o, result st' !! x = Some o → caught o = true) ∧
    ∀ x o, result st' !! x = Some o → result st !! x = Some o ∨ o = out x.
Proof.
  intros Hout Hi Hpc Hc.
  destruct (finish_list db deps e0 out (futures st) st Hi) as
    (st1 & Hr1 & Hi1 & Hp1 & Hpa1 & Hf1 & Hfu1 & Hs1 & Hres1 & Hm1 & Ho1).
  { intros f Hf. rewrite (inv_started _ _ _ Hi). by apply (inv_futures _ _ _ Hi). }
  assert (Hc1 : ∀ x o, result st1 !! x = Some o → caught o = true).
  { intros x o Hx. destruct (Ho1 x o Hx) as [H| ->]; [by apply (Hc x)|apply Hout]. }
  rewrite <- Hfu1 in Hres1.
  assert (Hpc1 : es_pc st1 = PWait) by congruence.
  destruct (collect_all deps e0 st1 Hi1 Hpc1 Hres1 Hc1) as (Hpc2 & Hf2 & Hr2).
  exists (main_collect st1). split_and!.
  - eapply rtc_r; [exact Hr1|]. apply step_collect; [done|].
    destruct (futures st1) as [|f fs] eqn:Hfs; [by left|right].
    exists f. split; [rewrite Hfs; left|]. apply Hres1. left.
  - by apply run_inv_main_collect.
  - done.
  - by rewrite Hf2, Hf1, Hfu1.
  - by rewrite Hr2.
  - intros x o Hx. rewrite Hr2 in Hx. by apply Ho1.
Qed.

Lemma top_to_done (db : TaskDB) (deps : dict string (list string)) (e0 : nat)
    (out : string → outcome) :
  (∀ x, x ∈ nodes deps → get_name db x = Ok x) → (∀ x, caught (out x) = true) →
  ∀ n st, length (filter (λ x, x ∉ finished st) (nodes deps)) < n →
  run_inv deps e0 st → es_pc st = PTop → (∀ x o, result st !! x = Some o → caught o = true) →
  ∃ st', rtc (step db deps) st st' ∧ es_pc st' = PDone ∧
    ∀ x o, result st' !! x = Some o → result st !! x = Some o ∨ o = out x.
Proof.
  intros Hid Hout n. induction n as [|n IH]; intros st Hn Hi Hpc Hc; [lia|].
  destruct (is_active deps st) eqn:Ha.
  - destruct (main_top_active db deps e0 st Hid Hi Ha) as (Hpc1 & Hf1 & Hp1 & Hr1).
    assert (Hi1 : run_inv deps e0 (main_top db deps st)) by (by apply run_inv_main_top).
    assert (Hx : ∃ x, x ∈ futures (main_top db deps st) ∧ x ∉ finished st).
    { unfold is_active in Ha. apply orb_true_iff in Ha as [Hlen|Hready].
      - apply bool_decide_eq_true in Hlen.
        destruct (decide (Forall (λ y, y ∈ finished st) (passed st))) as [Hall|Hnot].
        + exfalso. rewrite Forall_forall in Hall.
          assert (length (passed st) ≤ length (finished st)); [|lia].
          apply NoDup_incl_length; [apply NoDup_ListNoDup, (inv_passed_nodup _ _ _ Hi)|].
          intros y Hy. apply list_elem_of_In, Hall, list_elem_of_In, Hy.
        + apply not_Forall_Exists, Exists_exists in Hnot as (y & Hy & Hny); [|apply _].
          exists y. split; [|exact Hny]. apply (inv_futures _ _ _ Hi1). rewrite Hp1, Hf1.
          split; [set_solver|exact Hny].
      - apply bool_decide_eq_true in Hready.
        assert (Hy : ∃ y, y ∈ get_ready deps st).
        { destruct (get_ready deps st) as [|y r]; [done|]. exists y. left. }
        destruct Hy as [y Hy]. pose proof Hy as Hy'.
        apply get_ready_spec in Hy' as (_ & Hnp & _).
        assert (Hnf : y ∉ finished st) by (intros Hf; by apply Hnp, (inv_finished_passed _ _ _ Hi)).
        exists y. split; [|done]. apply (inv_futures _ _ _ Hi1). rewrite Hp1, Hf1.
        split; [set_solver|done]. }
    destruct Hx as (x & Hx & Hxf).
    assert (Hc1 : ∀ y o, result (main_top db deps st) !! y = Some o → caught o = true)
      by (rewrite Hr1; done).
    destruct (wait_to_top db deps e0 out (main_top db deps st) Hout Hi1 Hpc1 Hc1) as
      (st2 & Hr2 & Hi2 & Hpc2 & Hf2 & Hc2 & Ho2).
    destruct (IH st2) as (st3 & Hr3 & Hpc3 & Ho3); try done.
    { eapply Nat.lt_le_trans; [|apply Nat.lt_succ_r, Hn].
      apply (filter_not_in_strict _ _ _ x).
      - intros y Hy. rewrite Hf2, Hf1. set_solver.
      - apply (inv_passed_nodes _ _ _ Hi1). by apply (inv_futures _ _ _ Hi1).
      - rewrite Hf2. set_solver.
      - done. }
    exists st3. split; [eapply rtc_l; [by apply step_top|by eapply rtc_trans]|]. split; [done|].
    intros y o Hy. destruct (Ho3 y o Hy) as [H|H]; [|by right].
    destruct (Ho2 y o H) as [H'|H']; [|by right]. left. by rewrite <- Hr1.
  - exists (main_top db deps st). split; [apply rtc_once; by apply step_top|].
    unfold main_top. rewrite Ha. split; [done|]. intros y o Hy. by left.
Qed.

(** While no task body has raised a BaseException outside Exception,
    the loop can be driven to its end on an acyclic graph, whatever
    outcomes [out] the remaining task bodies have. *)
Lemma run_progress (db : TaskDB) (deps : dict string (list string)) (e0 : nat)
    (out : string → outcome) (st : ExecState) :
  (∀ x, x ∈ nodes deps → get_name db x = Ok x) → acyclic deps → (∀ x, caught (out x) = true) →
  run_inv deps e0 st → (∀ x o, result st !! x = Some o → caught o = true) →
  ∃ st', rtc (step db deps) st st' ∧ es_pc st' = PDone ∧
    ∀ x o, result st' !! x = Some o → result st !! x = Some o ∨ o = out x.
Proof.
  intros Hid Hac Hout Hi Hc.
  assert (Htop : ∀ s, run_inv deps e0 s → es_pc s = PTop →
            (∀ x o, result s !! x = Some o → caught o = true) →
            ∃ st', rtc (step db deps) s st' ∧ es_pc st' = PDone ∧
              ∀ x o, result st' !! x = Some o → result s !! x = Some o ∨ o = out x).
  { intros s Hs Hps Hcs.
    apply (top_to_done db deps e0 out Hid Hout
             (S (length (filter (λ x, x ∉ finished s) (nodes deps))))); [lia|done..]. }
  destruct (es_pc st) as [| | | |e] eqn:Hpc.
  - destruct (Htop (set_pc PTop st)) as (st' & Hr & Hd & Ho).
    + apply run_inv_set_pc; [done|intros ? [=]|intros _; done|intros [=]].
    + done.
    + exact Hc.
    + exists st'. split; [eapply rtc_l; [by apply step_prepare|exact Hr]|]. split; [done|exact Ho].
  - by apply Htop.
  - destruct (wait_to_top db deps e0 out st Hout Hi Hpc Hc) as (st1 & Hr1 & Hi1 & Hpc1 & _ & Hc1 & Ho1).
    destruct (Htop st1 Hi1 Hpc1 Hc1) as (st2 & Hr2 & Hd & Ho2).
    exists st2. split; [by eapply rtc_trans|]. split; [done|].
    intros x o Hx. destruct (Ho2 x o Hx) as [H|H]; [by apply Ho1|by right].
  - exists st. split; [apply rtc_refl|]. split; [done|]. intros x o Hx. by left.
  - exfalso. destruct (inv_fail _ _ _ Hi e Hpc) as [[_ Hna]|(x & m & _ & Hx)]; [done|].
    specialize (Hc x _ Hx). discriminate.
Qed.

(** *** The chain scenario as a run of the step relation *)

Lemma deps_chain_acyclic : acyclic Scenario.deps_chain.
Proof.
  exists ["a"; "b"]. split.
  - intros x Hx. vm_compute in Hx. set_solver.
  - intros i x p Hi Hp. destruct i as [|[|i]]; simpl in Hi; inversion Hi; subst;
      vm_compute in Hp.
    + set_solver.
    + change (p ∈ ["a"]) in Hp. apply list_elem_of_singleton in Hp as ->. exists 0; split; [lia|done].
Qed.

Lemma deps_chain_names (x : string) :
  x ∈ nodes Scenario.deps_chain → get_name Scenario.db_chain x = Ok x.
Proof.
  intros Hx. vm_compute in Hx.
  repeat (apply list_elem_of_cons in Hx as [->|Hx]; [by vm_compute|]).
  set_solver.
Qed.

Ltac chain_side :=
  first [ vm_compute; reflexivity
        | apply (bool_decide_unpack _); vm_compute; exact I ].

Lemma chain_b_started_reachable (o : outcome) :
  caught o = true →
  reachable Scenario.db_chain Scenario.deps_chain 0 (Scenario.chain_b_started o).
Proof.
  intros Hc. destruct o; [| |discriminate]; unfold reachable, Scenario.chain_b_started, Scenario.chain_b_submitted,
    Scenario.chain_a_ended, Scenario.chain_a_submitted;
  (eapply rtc_r; [|apply step_start; chain_side]);
  (eapply rtc_r; [|apply step_top; chain_side]);
  (eapply rtc_r; [|apply step_collect; [chain_side|right; exists "a"; split; chain_side]]);
  (eapply rtc_r; [|apply step_end; chain_side]);
  (eapply rtc_r; [|apply step_start; chain_side]);
  (eapply rtc_r; [|apply step_top; chain_side]);
  (eapply rtc_r; [|apply step_prepare; [chain_side|apply deps_chain_acyclic]]);
  apply rtc_refl.
Qed.

Lemma chain_done_reachable (o : outcome) :
  caught o = true →
  reachable Scenario.db_chain Scenario.deps_chain 0 (Scenario.chain_done o) ∧
  es_pc (Scenario.chain_done o) = PDone.
Proof.
  intros Hc. destruct o; [| |discriminate]; (split; [|chain_side]); unfold reachable, Scenario.chain_done;
  (eapply rtc_r; [|apply step_top; chain_side]);
  (eapply rtc_r; [|apply step_collect; [chain_side|right; exists "b"; split; chain_side]]);
  (eapply rtc_r; [|apply step_end; chain_side]);
  by apply chain_b_started_reachable.
Qed.

(** C1: for every run and every edge [p -> s] of the graph, once [s]
    has been handed to the pool, [p] has been marked done and has an
    [endtime]; and when [s] records its [starttime], [p]'s [endtime] is
    recorded and no later than it ([p.endtime <= s.starttime]). *)
Theorem run_start_after_pred_end (db : TaskDB) (deps : dict string (list string)) (e0 : nat)
    (st : ExecState) :
  (∀ x, x ∈ nodes deps → get_name db x = Ok x) →
  reachable db deps e0 st →
  (∀ s p, s ∈ started st → p ∈ preds deps s → p ∈ finished st ∧ is_Some (endtime st !! p)) ∧
  (∀ s p ts, p ∈ preds deps s → starttime st !! s = Some ts →
     ∃ te, endtime st !! p = Some te ∧ te ≤ ts).
Proof.
  intros Hid Hr. pose proof (run_inv_reachable db deps e0 st Hid Hr) as Hi. split.
  - intros s p Hs Hp. rewrite (inv_started _ _ _ Hi) in Hs.
    pose proof (inv_passed_preds _ _ _ Hi s p Hs Hp) as Hf. split; [done|].
    by apply (inv_result_end _ _ _ Hi), (inv_finished_result _ _ _ Hi).
  - intros s p ts Hp Hs. by apply (inv_start_preds _ _ _ Hi s ts p).
Qed.

Lemma run_start_after_pred_end_witness :
  ∃ te, endtime (Scenario.chain_b_started Success) !! "a" = Some te ∧
        starttime (Scenario.chain_b_started Success) !! "b" = Some 0 ∧ te ≤ 0.
Proof.
  destruct (proj2 (run_start_after_pred_end Scenario.db_chain Scenario.deps_chain 0
    (Scenario.chain_b_started Success) deps_chain_names (chain_b_started_reachable Success eq_refl))
    "b" "a" 0) as (te & Hte & Hle).
  - vm_compute. left.
  - vm_compute. reflexivity.
  - exists te. split; [exact Hte|]. split; [vm_compute; reflexivity|exact Hle].
Defined.

(** C1: the order is not strict.  On a clock that does not move
    between [a]'s end and [b]'s start, [b.starttime = a.endtime]. *)
Lemma run_start_equals_pred_end :
  reachable Scenario.db_chain Scenario.deps_chain 0 (Scenario.chain_b_started Success) ∧
  "a" ∈ preds Scenario.deps_chain "b" ∧
  starttime (Scenario.chain_b_started Success) !! "b" = Some 0 ∧
  endtime (Scenario.chain_b_started Success) !! "a" = Some 0.
Proof.
  split; [by apply chain_b_started_reachable|].
  split; [vm_compute; left|]. split; vm_compute; reflexivity.
Qed.

(** C2 (amended): on a graph whose nodes are each the name of the task
    they resolve to, a task body that raises an Exception does not abort
    the run.  The run only fails with the CycleError of [prepare], or
    when a task body raised a BaseException that is not an Exception.
    While no task body has raised the latter, the loop of an acyclic
    graph can always be driven to its end, whatever Exceptions the
    remaining task bodies raise ([out]).  Once the loop has ended, every
    node (so every successor of a failed task) was submitted and marked
    done with a result that [except Exception] catches, stderr holds
    exactly one line [(name, message)] per failed task, and the exit
    code is the [self.exitcode] the run started with ([e0]) when every
    task succeeded, otherwise 1. *)
Theorem run_failure_not_abort (db : TaskDB) (deps : dict string (list string)) (e0 : nat)
    (st : ExecState) :
  (∀ x, x ∈ nodes deps → get_name db x = Ok x) →
  reachable db deps e0 st →
  (∀ e, es_pc st = PFail e →
     (e = CycleError ∧ ¬ acyclic deps) ∨
     (∃ x m, e = Uncaught m ∧ result st !! x = Some (Escape m))) ∧
  (acyclic deps → (∀ x o, result st !! x = Some o → caught o = true) →
   ∀ out : string → outcome, (∀ x, caught (out x) = true) →
   ∃ st', rtc (step db deps) st st' ∧ es_pc st' = PDone ∧
     ∀ x o, result st' !! x = Some o → result st !! x = Some o ∨ o = out x) ∧
  (es_pc st = PDone →
     (∀ x, x ∈ nodes deps → x ∈ started st ∧ x ∈ finished st ∧
        (result st !! x = Some Success ∨ ∃ m, result st !! x = Some (Failure m))) ∧
     (∀ x m, (x, m) ∈ stderr st ↔ x ∈ nodes deps ∧ result st !! x = Some (Failure m)) ∧
     NoDup (map fst (stderr st)) ∧
     ((∀ x, x ∈ nodes deps → result st !! x = Some Success) → exitcode st = e0) ∧
     ((∃ x m, x ∈ nodes deps ∧ result st !! x = Some (Failure m)) → exitcode st = 1)).
Proof.
  intros Hid Hr. pose proof (run_inv_reachable db deps e0 st Hid Hr) as Hi.
  split; [apply (inv_fail _ _ _ Hi)|]. split.
  { intros Hac Hc out Hout. by apply (run_progress db deps e0 out st). }
  intros Hpc.
  pose proof (run_inv_done_all deps e0 st Hi Hpc) as Hall.
  assert (Hfn : ∀ x, x ∈ finished st ↔ x ∈ nodes deps).
  { intros x. split; [|apply Hall].
    intros Hx. by apply (inv_passed_nodes _ _ _ Hi), (inv_finished_passed _ _ _ Hi). }
  assert (Herr : ∀ x m, (x, m) ∈ stderr st ↔ x ∈ nodes deps ∧ result st !! x = Some (Failure m)).
  { intros x m. rewrite (inv_stderr _ _ _ Hi), Hfn. done. }
  assert (Hres : ∀ x, x ∈ nodes deps →
            result st !! x = Some Success ∨ ∃ m, result st !! x = Some (Failure m)).
  { intros x Hx. destruct (inv_finished_result _ _ _ Hi x (Hall x Hx)) as [o Ho].
    pose proof (inv_finished_caught _ _ _ Hi x o (Hall x Hx) Ho) as Hco.
    destruct o as [|m|m]; [by left|right; by exists m|discriminate]. }
  pose proof (inv_exit _ _ _ Hi) as Hex.
  split_and!.
  - intros x Hx. rewrite (inv_started _ _ _ Hi).
    split; [by apply (inv_finished_passed _ _ _ Hi), Hall|].
    split; [by apply Hall|]. by apply Hres.
  - exact Herr.
  - apply (inv_stderr_nodup _ _ _ Hi).
  - intros Hs. rewrite Hex. destruct (decide (stderr st = [])) as [|Hne]; [done|exfalso].
    destruct (stderr st) as [|[x m] l] eqn:Hl; [done|].
    assert (Hin : (x, m) ∈ (x, m) :: l) by left.
    apply Herr in Hin as [Hx Hres']. rewrite (Hs x Hx) in Hres'. done.
  - intros (x & m & Hx & Hxm). rewrite Hex. rewrite decide_False; [done|].
    intros Hnil. assert (Hin : (x, m) ∈ stderr st) by (by apply Herr).
    rewrite Hnil in Hin. set_solver.
Qed.

Lemma run_failure_not_abort_witness :
  es_pc (Scenario.chain_done (Failure "boom")) = PDone ∧
  "b" ∈ started (Scenario.chain_done (Failure "boom")) ∧
  stderr (Scenario.chain_done (Failure "boom")) = [("a", "boom")] ∧
  exitcode (Scenario.chain_done (Failure "boom")) = 1.
Proof.
  destruct (chain_done_reachable (Failure "boom") eq_refl) as [Hr Hpc].
  destruct (run_failure_not_abort Scenario.db_chain Scenario.deps_chain 0
    (Scenario.chain_done (Failure "boom")) deps_chain_names Hr) as (_ & _ & Hd).
  destruct (Hd Hpc) as (Hst & _ & _ & _ & Hone).
  split; [exact Hpc|]. split; [apply (Hst "b"); chain_side|].
  split; [vm_compute; reflexivity|].
  apply Hone. exists "a", "boom". split; [chain_side|vm_compute; reflexivity].
Defined.

(** C2: two runs against the claim as stated.  A task body that raises
    KeyboardInterrupt, a BaseException that is not an Exception, aborts
    [run()] once its future is collected: [a]'s successor [b] is then
    never handed to the pool nor marked done, whatever the workers do.
    And [self.exitcode] is not reset by [run()]: on a [Modprobe] whose
    earlier run failed, a run in which every task succeeds returns 1. *)
Lemma run_base_exception_aborts :
  reachable Scenario.db_chain Scenario.deps_chain 0 Scenario.chain_a_escaped ∧
  es_pc Scenario.chain_a_escaped = PFail (Uncaught "KeyboardInterrupt") ∧
  (∀ st, rtc (step Scenario.db_chain Scenario.deps_chain) Scenario.chain_a_escaped st →
     "b" ∉ started st ∧ "b" ∉ finished st) ∧
  reachable Scenario.db_chain Scenario.deps_chain 1 Scenario.rerun_done ∧
  es_pc Scenario.rerun_done = PDone ∧
  result Scenario.rerun_done !! "a" = Some Success ∧
  result Scenario.rerun_done !! "b" = Some Success ∧
  exitcode Scenario.rerun_done = 1.
Proof.
  assert (Hpc : es_pc Scenario.chain_a_escaped = PFail (Uncaught "KeyboardInterrupt"))
    by (vm_compute; reflexivity).
  split.
  { unfold reachable, Scenario.chain_a_escaped, Scenario.chain_a_ended, Scenario.chain_a_submitted.
    (eapply rtc_r; [|apply step_collect; [chain_side|right; exists "a"; split; chain_side]]).
    (eapply rtc_r; [|apply step_end; chain_side]).
    (eapply rtc_r; [|apply step_start; chain_side]).
    (eapply rtc_r; [|apply step_top; chain_side]).
    (eapply rtc_r; [|apply step_prepare; [chain_side|apply deps_chain_acyclic]]).
    apply rtc_refl. }
  split; [exact Hpc|]. split.
  { intros st Hr. destruct (fail_stays _ _ _ _ _ Hpc Hr) as (_ & Hs & Hf).
    rewrite Hs, Hf.
    assert (Hsa : started Scenario.chain_a_escaped = ["a"]) by (vm_compute; reflexivity).
    assert (Hfa : finished Scenario.chain_a_escaped = []) by (vm_compute; reflexivity).
    rewrite Hsa, Hfa. set_solver. }
  split.
  { unfold reachable, Scenario.rerun_done, Scenario.rerun_b_started, Scenario.rerun_a_ended.
    (eapply rtc_r; [|apply step_top; chain_side]).
    (eapply rtc_r; [|apply step_collect; [chain_side|right; exists "b"; split; chain_side]]).
    (eapply rtc_r; [|apply step_end; chain_side]).
    (eapply rtc_r; [|apply step_start; chain_side]).
    (eapply rtc_r; [|apply step_top; chain_side]).
    (eapply rtc_r; [|apply step_collect; [chain_side|right; exists "a"; split; chain_side]]).
    (eapply rtc_r; [|apply step_end; chain_side]).
    (eapply rtc_r; [|apply step_start; chain_side]).
    (eapply rtc_r; [|apply step_top; chain_side]).
    (eapply rtc_r; [|apply step_prepare; [chain_side|apply deps_chain_acyclic]]).
    apply rtc_refl. }
  split_and!; vm_compute; reflexivity.
Qed.

(* ------------------------------------------------------------------ *)
(** ** Further properties of the module *)

Lemma reach_trans (db : TaskDB) (ts ts' : list string) (z : string) :
  (∀ y, y ∈ ts' → reach db ts y) → reach db ts' z → reach db ts z.
Proof.
  intros Hy Hr. induction Hr as [x Hx|x t y Hr IH Hg Hy'].
  - by apply Hy.
  - by apply (reach_req _ _ x t).
Qed.

Lemma solve_rec_sound (ctx : Context) (db : TaskDB) (d : nat) :
  ∀ ts V sk r V' sk', solve_tasks_recursive d ctx db ts V sk = Ok (r, V', sk') →
  ∀ n, n ∈ r → solved_ref ctx db ts n.
Proof.
  induction d as [|d IH]; intros ts V sk r V' sk' Hs; [done|].
  cbn [solve_tasks_recursive] in Hs.
  assert (Hsub : ∀ x, x ∈ filter (λ x, x ∉ V) ts → x ∈ ts).
  { intros x Hx. by apply list_elem_of_filter in Hx as [_ ?]. }
  assert (Hres : ∀ n, n ∈ (∅ : gset string) → solved_ref ctx db ts n) by set_solver.
  revert Hsub Hres Hs. generalize (filter (λ x, x ∉ V) ts) as l.
  generalize (∅ : gset string) as res. intros res l. revert V sk res.
  induction l as [|x l IHl]; intros V sk res Hsub Hres Hs; simpl in Hs.
  - injection Hs as <- _ _. done.
  - destruct (get db x) as [t|e] eqn:Hg; [|done]. simpl in Hs.
    assert (Hx : reach db ts x) by (apply reach_seed, Hsub; left).
    assert (Hres' : ∀ n, n ∈ (if enabled t ctx then {[name t]} ∪ res else res) →
                      solved_ref ctx db ts n).
    { intros n Hn. destruct (enabled t ctx) eqn:He; [|by apply Hres].
      apply elem_of_union in Hn as [Hn|Hn]; [|by apply Hres].
      apply elem_of_singleton in Hn as ->. by exists x, t. }
    destruct (enabled t ctx);
    (destruct (requires t) as [|r0 rs] eqn:Hr;
     [apply (IHl _ _ _ (λ y Hy, Hsub y (list_elem_of_further _ _ _ Hy)) Hres' Hs)|]);
    (destruct (solve_tasks_recursive d ctx db (r0 :: rs) _ _) as [[[rset v2] s2]|] eqn:Hrec;
     [|done]); simpl in Hs;
    (eapply (IHl _ _ _ (λ y Hy, Hsub y (list_elem_of_further _ _ _ Hy))); [|exact Hs]);
    intros n Hn; (apply elem_of_union in Hn as [Hn|Hn]; [by apply Hres'|]);
    destruct (IH _ _ _ _ _ _ Hrec n Hn) as (y & ty & Hy & Hgy & Hey & Hny);
    exists y, ty; (split; [|done]);
    (eapply reach_trans; [|exact Hy]);
    intros z Hz; (apply (reach_req _ _ x t); [done|done|by rewrite Hr]).
Qed.

(** [Modprobe.solve] is sound: every name it returns is the canonical
    name of an enabled task reachable from the seed names through
    [requires]. *)
Theorem solve_sound (ctx : Context) (db : TaskDB) (ts : list string) (r : gset string) :
  solve ctx db ts = Ok r → ∀ n, n ∈ r → solved_ref ctx db ts n.
Proof.
  unfold solve. intros Hs.
  destruct (solve_tasks_recursive recursion_limit ctx db ts ∅ ∅) as [[[r0 V] sk]|] eqn:Hr;
    [|done].
  injection Hs as <-. by apply (solve_rec_sound ctx db recursion_limit ts ∅ ∅ r0 V sk).
Qed.

Lemma solve_rec_seeds (ctx : Context) (db : TaskDB) (d : nat) :
  ∀ ts V sk r V' sk', solve_tasks_recursive d ctx db ts V sk = Ok (r, V', sk') →
  ∀ x, x ∈ ts → x ∉ V → ∃ t, get db x = Ok t.
Proof.
  intros ts V sk r V' sk' Hs x Hx HV. destruct d as [|d]; [done|].
  cbn [solve_tasks_recursive] in Hs.
  assert (Hx' : x ∈ filter (λ x, x ∉ V) ts) by (apply list_elem_of_filter; done).
  revert Hx' Hs. generalize (filter (λ x, x ∉ V) ts) as l.
  generalize (∅ : gset string) as res. intros res l. clear HV. revert V sk res.
  induction l as [|y l IHl]; intros V sk res Hx' Hs; [set_solver|].
  simpl in Hs. destruct (get db y) as [t|e] eqn:Hg; [|done].
  apply elem_of_cons in Hx' as [->|Hx']; [by exists t|].
  simpl in Hs. destruct (enabled t ctx), (requires t) as [|r1 rs].
  all: try exact (IHl _ _ _ Hx' Hs).
  all: destruct (solve_tasks_recursive d ctx db (r1 :: rs) _ _) as [[[rset v2] s2]|];
    [simpl in Hs; exact (IHl _ _ _ Hx' Hs)|done].
Qed.

(** When [Modprobe.solve] returns, every seed name resolved in the
    database. *)
Theorem solve_seeds_resolve (ctx : Context) (db : TaskDB) (ts : list string) (r : gset string) :
  solve ctx db ts = Ok r → ∀ x, x ∈ ts → ∃ t, get db x = Ok t.
Proof.
  unfold solve. intros Hs x Hx.
  destruct (solve_tasks_recursive recursion_limit ctx db ts ∅ ∅) as [[[r0 V] sk]|] eqn:Hr;
    [|done].
  apply (solve_rec_seeds ctx db recursion_limit ts ∅ ∅ r0 V sk Hr x Hx), not_elem_of_empty.
Qed.

Lemma split_on_app (c : Ascii.ascii) (d rest : string) :
  split_on c d = [d] → split_on c (String.append d (String c rest)) = d :: split_on c rest.
Proof.
  induction d as [|a d IH]; intros Hd; simpl.
  - by rewrite decide_True.
  - simpl in Hd. destruct (decide (a = c)) as [->|Hac]; [discriminate|].
    destruct (split_on c d) as [|f r] eqn:Hs; simplify_eq/=.
    by rewrite IH.
Qed.

Lemma split_on_concat (l : list string) :
  l ≠ [] → Forall (λ d, split_on colon d = [d]) l →
  split_on colon (String.concat (String colon EmptyString) l) = l.
Proof.
  induction l as [|d l IH]; intros Hne Hl; [done|].
  apply Forall_cons in Hl as [Hd Hl].
  destruct l as [|d' l']; [exact Hd|].
  change (String.concat (String colon EmptyString) (d :: d' :: l'))
    with (String.append d (String colon
            (String.concat (String colon EmptyString) (d' :: l')))).
  rewrite split_on_app by done. rewrite IH; done.
Qed.

(** The search list of [configure_modules]: the first entry is the
    literal ["{etc}/modules.d/*.toml"] (never interpolated), then the
    colon-separated fields of [FLUX_MODPROBE_PATH] except those made of
    whitespace only; the empty field is kept.  With the variable unset,
    the list is that literal and [""], whose glob is
    ["/modules.d/*.toml"]. *)
Theorem configure_dirs_fields (l : list string) (path_exists : string → bool) :
  (l ≠ [] → Forall (λ d, split_on colon d = [d]) l →
   modules_dirs (Some (String.concat (String colon EmptyString) l)) =
     "{etc}/modules.d/*.toml" :: filter (λ s, py_isspace s = false) l) ∧
  modules_dirs None = ["{etc}/modules.d/*.toml"; ""] ∧
  configure_globs path_exists None =
    (if path_exists "{etc}/modules.d/*.toml" then ["{etc}/modules.d/*.toml/modules.d/*.toml"] else []) ++
    (if path_exists "" then ["/modules.d/*.toml"] else []).
Proof.
  split; [intros Hne Hl; unfold modules_dirs; simpl; by rewrite split_on_concat|].
  split; [vm_compute; reflexivity|].
  unfold configure_globs. change (modules_dirs None) with ["{etc}/modules.d/*.toml"; ""].
  cbn [filter list_filter]. unfold decide, decide_rel.
  destruct (path_exists "{etc}/modules.d/*.toml"), (path_exists ""); simpl; reflexivity.
Qed.

Lemma configure_dirs_fields_witness :
  modules_dirs (Some (String.concat (String colon EmptyString) ["/opt/flux"; ""; " "])) =
    ["{etc}/modules.d/*.toml"; "/opt/flux"; ""].
Proof.
  rewrite (proj1 (configure_dirs_fields ["/opt/flux"; ""; " "] (λ _, true)));
    [vm_compute; reflexivity|discriminate|].
  repeat constructor; vm_compute; reflexivity.
Defined.

Lemma cnt_app (l1 l2 : list string) (x : string) : cnt (l1 ++ l2) x = (cnt l1 x + cnt l2 x)%nat.
Proof. unfold cnt. apply count_occ_app. Qed.

(** [setopt(m, o)] then [getopts(name, also)]: [o] is appended to the
    options of [m] only, so it appears once more for each occurrence of
    [m] among [name] and [also]. *)
Theorem setopt_getopts (ma : gmap string (list string)) (m o nm : string) (also : option (list string)) :
  getopts (setopt m o ma) nm also =
    concat (map (λ n, default [] (ma !! n) ++ (if decide (n = m) then [o] else []))
              (nm :: default [] also)) ∧
  cnt (getopts (setopt m o ma) nm also) o =
    (cnt (getopts ma nm also) o + cnt (nm :: default [] also) m)%nat.
Proof.
  assert (Hseg : ∀ n, default [] (setopt m o ma !! n) =
                      default [] (ma !! n) ++ (if decide (n = m) then [o] else [])).
  { intros n. unfold setopt. destruct (decide (n = m)) as [->|Hnm].
    - by rewrite lookup_insert_eq.
    - rewrite lookup_insert_ne by done. by rewrite app_nil_r. }
  unfold getopts. generalize (nm :: default [] also) as l. intros l. split.
  - induction l as [|n l IH]; [done|]. cbn [map concat]. by rewrite Hseg, IH.
  - induction l as [|n l IH]; [done|]. cbn [map concat].
    rewrite !cnt_app, IH, Hseg, cnt_app.
    destruct (decide (n = m)) as [->|Hnm].
    + rewrite !cnt_cons_eq. change (cnt [] o) with 0%nat. lia.
    + rewrite cnt_cons_neq by done. change (cnt [] o) with 0%nat. lia.
Qed.

(** [activate_modules] is not atomic: it appends the requested names in
    order up to the first one that does not resolve or is not a module,
    and raises there, leaving the names before it appended. *)
Theorem activate_modules_partial (is_module : nat → bool) (db : TaskDB) (act modules : list string) :
  ∃ k, k ≤ length modules ∧
    fst (activate_modules is_module db act modules) = act ++ take k modules ∧
    (∀ i m, i < k → modules !! i = Some m →
       ∃ id, get_id db m = Ok id ∧ is_module id = true) ∧
    (snd (activate_modules is_module db act modules) = None → k = length modules) ∧
    (∀ e, snd (activate_modules is_module db act modules) = Some e →
       ∃ m, modules !! k = Some m ∧ (e = NotAModule m ∨ e = ActGet (NotFound m))).
Proof.
  revert act. induction modules as [|m ms IH]; intros act; simpl.
  - exists 0. rewrite app_nil_r. split; [lia|]. split; [done|]. split; [intros; lia|].
    split; [done|discriminate].
  - destruct (get_id db m) as [id|e] eqn:Hid.
    2: { exists 0. simpl. rewrite app_nil_r. split; [lia|]. split; [done|].
         split; [intros; lia|]. split; [discriminate|]. intros e' [= <-].
         exists m. split; [done|]. right. unfold get_id in Hid.
         destruct (last _); congruence. }
    destruct (heap db !! id) as [t|] eqn:Hh.
    2: { exists 0. simpl. rewrite app_nil_r. split; [lia|]. split; [done|].
         split; [intros; lia|]. split; [discriminate|]. intros e' [= <-].
         exists m. split; [done|]. by right. }
    destruct (is_module id) eqn:Hm.
    2: { exists 0. simpl. rewrite app_nil_r. split; [lia|]. split; [done|].
         split; [intros; lia|]. split; [discriminate|]. intros e' [= <-].
         exists m. split; [done|]. by left. }
    destruct (IH (act ++ [m])) as (k & Hk & Hf & Hpre & Hn & Hs).
    exists (S k). split; [lia|]. split; [by rewrite Hf, <- app_assoc|].
    split; [|split; [intros H; rewrite (Hn H); done|exact Hs]].
    intros [|i] m' Hi Him; simpl in Him.
    + injection Him as <-. by exists id.
    + apply (Hpre i); [lia|done].
Qed.

Lemma next_id_fresh (db : TaskDB) (i : nat) : is_Some (heap db !! i) → i < next_id db.
Proof.
  unfold next_id. revert i.
  apply (map_fold_weak_ind (λ r (h : gmap nat Task), ∀ i, is_Some (h !! i) → i < r)).
  - intros i [y Hy]. by rewrite lookup_empty in Hy.
  - intros j x h r Hj IH i [y Hy]. destruct (decide (i = j)) as [->|Hij]; [lia|].
    rewrite lookup_insert_ne in Hy by congruence. specialize (IH i (ltac:(by eexists))). lia.
Qed.

Lemma foldl_append_at (id : nat) (l : list string) :
  ∀ m k, (k ∈ l → last (default [] (foldl (λ m p, append_at p id m) m l !! k)) = Some id) ∧
         (k ∉ l → foldl (λ m p, append_at p id m) m l !! k = m !! k).
Proof.
  induction l as [|p l IH]; intros m k; simpl; [split; [set_solver|done]|].
  destruct (IH (append_at p id m) k) as [H1 H2]. split.
  - intros Hk. destruct (decide (k ∈ l)) as [Hin|Hnin]; [by apply H1|].
    rewrite H2 by done. apply elem_of_cons in Hk as [->|]; [|done].
    unfold append_at. rewrite lookup_insert_eq. simpl. apply last_snoc.
  - intros Hk. rewrite H2 by set_solver. unfold append_at.
    rewrite lookup_insert_ne by set_solver. done.
Qed.

Lemma add_task_lookup (t : Task) (db : TaskDB) (k : string) :
  (k ∈ name t :: provides t → last (default [] (tasks (add_task t db) !! k)) = Some (next_id db)) ∧
  (k ∉ name t :: provides t → tasks (add_task t db) !! k = tasks db !! k) ∧
  heap (add_task t db) = <[next_id db := t]> (heap db).
Proof.
  unfold add_task, taskdb_add. simpl. rewrite lookup_insert_eq. simpl.
  set (m := foldl (λ m p, append_at p (next_id db) m) (tasks db) (provides t)).
  destruct (foldl_append_at (next_id db) (provides t) (tasks db) k) as [H1 H2].
  split; [|split; [|done]].
  - intros Hk. unfold append_at. destruct (decide (k = name t)) as [->|Hne].
    + rewrite lookup_insert_eq. simpl. apply last_snoc.
    + rewrite lookup_insert_ne by congruence. apply H1. set_solver.
  - intros Hk. unfold append_at. rewrite lookup_insert_ne by set_solver. apply H2. set_solver.
Qed.

(** [TaskDB.add] then [TaskDB.get]: in a database whose lists only hold
    registered objects, a newly added task is what [get] returns for its
    name and for each of its [provides]; every other service resolves as
    before. *)
Theorem add_task_then_get (t : Task) (db : TaskDB) :
  (∀ s l i, tasks db !! s = Some l → i ∈ l → is_Some (heap db !! i)) →
  get (add_task t db) (name t) = Ok t ∧
  (∀ p, p ∈ provides t → get (add_task t db) p = Ok t) ∧
  (∀ s, s ∉ name t :: provides t → get (add_task t db) s = get db s).
Proof.
  intros Hwf.
  assert (Hin : ∀ k, k ∈ name t :: provides t → get (add_task t db) k = Ok t).
  { intros k Hk. destruct (add_task_lookup t db k) as (H1 & _ & Hh).
    unfold get, get_id. rewrite (H1 Hk). simpl. by rewrite Hh, lookup_insert_eq. }
  split; [apply Hin; left|]. split; [intros p Hp; apply Hin; by right|].
  intros s Hs. destruct (add_task_lookup t db s) as (_ & H2 & Hh).
  unfold get, get_id. rewrite (H2 Hs), Hh.
  destruct (last (default [] (tasks db !! s))) as [i|] eqn:Hl; simpl; [|done].
  assert (Hi : is_Some (heap db !! i)).
  { destruct (tasks db !! s) as [l|] eqn:Hs'; simpl in Hl; [|done].
    apply (Hwf s l i Hs'). by apply last_Some_elem_of. }
  pose proof (next_id_fresh db i Hi). rewrite lookup_insert_ne by lia. done.
Qed.

Lemma append_at_elem (k p : string) (id i : nat) (m : gmap string (list nat)) (l : list nat) :
  append_at p id m !! k = Some l → i ∈ l → i = id ∨ ∃ l0, m !! k = Some l0 ∧ i ∈ l0.
Proof.
  unfold append_at. destruct (decide (k = p)) as [->|Hne].
  - rewrite lookup_insert_eq. intros [= <-] Hi. apply elem_of_app in Hi as [Hi|Hi].
    + right. destruct (m !! p) as [l0|]; simpl in Hi; [by exists l0|set_solver].
    + left. set_solver.
  - rewrite lookup_insert_ne by congruence. intros Hk Hi. right. by exists l.
Qed.

Lemma foldl_append_at_elem (id : nat) (ps : list string) :
  ∀ m k l i, foldl (λ m p, append_at p id m) m ps !! k = Some l → i ∈ l →
  i = id ∨ ∃ l0, m !! k = Some l0 ∧ i ∈ l0.
Proof.
  induction ps as [|p ps IH]; intros m k l i Hk Hi; simpl in Hk; [right; by exists l|].
  destruct (IH _ _ _ _ Hk Hi) as [?|(l1 & H1 & Hi1)]; [by left|].
  by apply (append_at_elem k p id i m l1).
Qed.

Lemma add_task_wf (t : Task) (db : TaskDB) :
  (∀ s l i, tasks db !! s = Some l → i ∈ l → is_Some (heap db !! i)) →
  (∀ s l i, tasks (add_task t db) !! s = Some l → i ∈ l → is_Some (heap (add_task t db) !! i)).
Proof.
  intros Hwf s l i Hs Hi. destruct (add_task_lookup t db s) as (_ & _ & Hh). rewrite Hh.
  destruct (decide (i = next_id db)) as [->|Hne]; [by rewrite lookup_insert_eq|].
  rewrite lookup_insert_ne by congruence.
  unfold add_task, taskdb_add in Hs. simpl in Hs. rewrite lookup_insert_eq in Hs. simpl in Hs.
  destruct (append_at_elem _ _ _ _ _ _ Hs Hi) as [?|(l1 & H1 & Hi1)]; [done|].
  destruct (foldl_append_at_elem _ _ _ _ _ _ H1 Hi1) as [?|(l0 & H0 & Hi0)]; [done|].
  by apply (Hwf s l0 i).
Qed.

Lemma db_of_wf (ts : list Task) :
  ∀ s l i, tasks (db_of ts) !! s = Some l → i ∈ l → is_Some (heap (db_of ts) !! i).
Proof.
  unfold db_of.
  assert (H0 : ∀ s l i, tasks (mkDB ∅ ∅) !! s = Some l → i ∈ l → is_Some (heap (mkDB ∅ ∅) !! i)).
  { intros s l i Hs. simpl in Hs. by rewrite lookup_empty in Hs. }
  revert H0. generalize (mkDB ∅ ∅) as db0. induction ts as [|t ts IH]; intros db0 H0; simpl; [done|].
  apply IH. by apply add_task_wf.
Qed.

(** [set_alternative(service, X)] only reorders: the task objects and
    the lists of the other services are unchanged, the list of [service]
    is a permutation of the old one, and the entry moved to the tail is
    the first one named [X]. *)
Theorem set_alternative_reorders (db db' : TaskDB) (service X : string) :
  set_alternative db service (Some X) = Ok db' →
  heap db' = heap db ∧
  default [] (tasks db' !! service) ≡ₚ default [] (tasks db !! service) ∧
  (∀ s, s ≠ service → tasks db' !! s = tasks db !! s) ∧
  ∃ i id, default [] (tasks db !! service) !! i = Some id ∧ obj_named db X id ∧
    (∀ j id', j < i → default [] (tasks db !! service) !! j = Some id' → ¬ obj_named db X id') ∧
    get_id db' service = Ok id.
Proof.
  simpl. destruct (list_find (obj_named db X) (default [] (tasks db !! service)))
    as [[i id]|] eqn:Hf; [|done].
  intros [= <-]. simpl. apply list_find_Some in Hf as (Hl & Hn & Hfirst).
  split; [done|]. split; [|split].
  - rewrite lookup_insert_eq. simpl. symmetry.
    etrans; [apply (delete_Permutation _ _ _ Hl)|]. by rewrite Permutation_app_comm.
  - intros s Hs. by rewrite lookup_insert_ne by congruence.
  - exists i, id. split; [done|]. split; [done|]. split; [intros j id' Hj Hj'; by apply (Hfirst j id')|].
    unfold get_id. simpl. rewrite lookup_insert_eq. simpl. by rewrite last_snoc.
Qed.

(** [disable(svc)] mutates shared task objects: [get(s)] for any service
    [s] afterwards returns the disabled copy exactly when the object at
    the tail of [s] is also registered under [svc]. *)
Theorem disable_shared (db : TaskDB) (svc s : string) :
  get (disable db svc) s =
    match get db s with
    | Ok t => match get_id db s with
              | Ok id => Ok (if decide (id ∈ default [] (tasks db !! svc)) then set_disabled t else t)
              | Err e => Err e
              end
    | Err e => Err e
    end.
Proof.
  unfold get at 1 2. unfold get_id. simpl.
  destruct (last (default [] (tasks db !! s))) as [id|] eqn:Hl; simpl; [|done].
  rewrite disable_heap_lookup.
  destruct (decide (id ∈ default [] (tasks db !! svc))); destruct (heap db !! id); done.
Qed.

Lemma list_remove_sublist (x : string) (l : list string) : list_remove x l `sublist_of` l.
Proof.
  induction l as [|a l IH]; simpl; [done|].
  destruct (decide (x = a)); [by apply sublist_cons|by apply sublist_skip].
Qed.

Lemma needs_loop_sublist (db : TaskDB) (m : string) (ns cur cur' : list string) :
  needs_loop db m ns cur = Ok cur' → cur' `sublist_of` cur.
Proof.
  revert cur. induction ns as [|need ns IH]; intros cur H; simpl in H.
  - by injection H as <-.
  - apply bind_Ok in H as ([] & _ & H); [by apply IH|].
    etrans; [by apply (IH _ H)|].
    destruct (decide (m ∈ cur)); [apply list_remove_sublist|done].
Qed.

Lemma process_needs_loop_sublist (db : TaskDB) (copy cur r : list string) :
  process_needs_loop db copy cur = Ok r → r `sublist_of` cur ∧ resolves db copy.
Proof.
  revert cur. induction copy as [|m rest IH]; intros cur H; simpl in H.
  - injection H as <-. split; [done|]. intros x Hx. set_solver.
  - apply bind_Ok in H as (t & Ht & H). apply bind_Ok in H as (cur' & Hn & H).
    destruct (IH _ H) as [Hs Hr]. split; [etrans; [exact Hs|by eapply needs_loop_sublist]|].
    intros x Hx. apply elem_of_cons in Hx as [->|Hx]; [by exists t|by apply Hr].
Qed.

(** [process_needs] only removes names, keeping the order of the rest,
    and it raises exactly when some name of the list does not resolve. *)
Theorem process_needs_spec (db : TaskDB) (ts : list string) :
  (∀ r, process_needs db ts = Ok r → r `sublist_of` ts) ∧
  ((∃ r, process_needs db ts = Ok r) ↔ ∀ x, x ∈ ts → ∃ t, get db x = Ok t).
Proof.
  split; [intros r H; by apply (process_needs_loop_sublist db ts ts r)|].
  split.
  - intros (r & H). by apply (process_needs_loop_sublist db ts ts r).
  - intros H. by apply process_needs_loop_ok.
Qed.

Lemma filter_enabled_spec (db : TaskDB) (ctx : Context) (l r : list string) :
  filter_enabled db ctx l = Ok r →
  r `sublist_of` l ∧ ∀ x, x ∈ l → (x ∈ r ↔ ∃ t, get db x = Ok t ∧ enabled t ctx = true).
Proof.
  revert r. induction l as [|y l IH]; intros r H; simpl in H.
  - injection H as <-. split; [done|]. intros x Hx. set_solver.
  - apply bind_Ok in H as (t & Ht & H). apply bind_Ok in H as (r' & Hr' & H).
    injection H as <-. destruct (IH r' Hr') as [Hs Hx].
    split; [destruct (enabled t ctx); [by apply sublist_skip|by apply sublist_cons]|].
    intros x Hxl.
    destruct (decide (x = y)) as [->|Hne].
    + rewrite Ht. destruct (enabled t ctx) eqn:He.
      * split; [intros _; by exists t|intros _; left].
      * split; [|intros (t' & [= <-] & He'); congruence].
        intros Hy. destruct (Hx y) as [Hx1 _]; [|destruct (Hx1 Hy) as (t' & Ht' & He'); congruence].
        by eapply filter_enabled_sub.
    + apply elem_of_cons in Hxl as [?|Hxl]; [done|].
      rewrite <- Hx by done. destruct (enabled t ctx); [|done].
      split; [intros Hin; by apply elem_of_cons in Hin as [?|?]|intros; by right].
Qed.

(** [active_tasks]: the stored list is pruned to a sublist of itself,
    and the value returned is the sublist of its enabled tasks. *)
Theorem active_tasks_spec (mp mp' : Modprobe) (r : list string) :
  active_tasks mp = Ok (r, mp') →
  active mp' `sublist_of` active mp ∧ r `sublist_of` active mp' ∧
  (∀ x, x ∈ active mp' → (x ∈ r ↔ ∃ t, get (taskdb mp) x = Ok t ∧ enabled t (context mp) = true)) ∧
  taskdb mp' = taskdb mp ∧ context mp' = context mp.
Proof.
  unfold active_tasks. intros H.
  apply bind_Ok in H as (l & Hl & H). apply bind_Ok in H as (r' & Hr & H).
  injection H as <- <-. simpl.
  destruct (process_needs_loop_sublist _ _ _ _ Hl) as [Hs _].
  destruct (filter_enabled_spec _ _ _ _ Hr) as [Hs' Hx]. done.
Qed.

(** Reading [active_tasks] raises exactly when some stored name does not
    resolve. *)
Theorem active_tasks_ok_iff (mp : Modprobe) :
  (∃ r mp', active_tasks mp = Ok (r, mp')) ↔ ∀ x, x ∈ active mp → ∃ t, get (taskdb mp) x = Ok t.
Proof.
  unfold active_tasks. split.
  - intros (r & mp' & H). apply bind_Ok in H as (l & Hl & _).
    by apply (process_needs_loop_sublist _ _ _ _ Hl).
  - intros H. destruct (process_needs_loop_ok (taskdb mp) (active mp) (active mp) H H) as (l & Hl).
    unfold process_needs. rewrite Hl. simpl.
    destruct (process_needs_loop_sublist _ _ _ _ Hl) as [Hs _].
    destruct (filter_enabled_ok (taskdb mp) (context mp) l) as (r & Hr).
    { intros x Hx. apply H. by eapply elem_of_submseteq; [|apply sublist_submseteq]. }
    rewrite Hr. simpl. by do 2 eexists.
Qed.

Lemma foldM_inv {A B : Type} (P : B → Prop) (f : B → A → res B) (l : list A) :
  (∀ acc x acc', P acc → x ∈ l → f acc x = Ok acc' → P acc') →
  ∀ acc r, P acc → foldM f acc l = Ok r → P r.
Proof.
  induction l as [|x l IH]; intros Hf acc r HP H; simpl in H; [by injection H as <-|].
  apply bind_Ok in H as (acc' & H1 & H2).
  apply (IH (λ a y a' Ha Hy, Hf a y a' Ha (list_elem_of_further _ _ _ Hy)) acc'); [|done].
  apply (Hf acc x acc' HP); [left|done].
Qed.

Lemma dict_keys_set {V} (k x : string) (v : V) (d : dict string V) :
  x ∈ dict_keys (dict_set k v d) ↔ x = k ∨ x ∈ dict_keys d.
Proof.
  induction d as [|[k' v'] d IH]; simpl; [set_solver|].
  destruct (decide (k = k')) as [->|]; unfold dict_keys in *; simpl; [set_solver|].
  rewrite !elem_of_cons, IH. naive_solver.
Qed.

Lemma dict_keys_set_in {V} (k : string) (v : V) (d : dict string V) :
  k ∈ dict_keys d → dict_keys (dict_set k v d) = dict_keys d.
Proof.
  induction d as [|[k' v'] d IH]; simpl; [set_solver|].
  destruct (decide (k = k')) as [->|Hne]; [done|].
  unfold dict_keys in *; simpl. intros Hk. f_equal. apply IH. set_solver.
Qed.

Lemma dict_append_spec (k v : string) (d d' : dict string (list string)) :
  dict_append k v d = Ok d' →
  dict_keys d' = dict_keys d ∧
  ∀ k' l', dict_get k' d' = Some l' →
    (k' = k ∧ ∃ l, dict_get k d = Some l ∧ l' = l ++ [v]) ∨ (k' ≠ k ∧ dict_get k' d = Some l').
Proof.
  unfold dict_append. destruct (dict_get k d) as [l|] eqn:Hk; [|done]. intros [= <-].
  split.
  - apply dict_keys_set_in. apply dict_get_elem in Hk.
    apply list_elem_of_In, in_map_iff. exists (k, l). split; [done|]. by apply list_elem_of_In.
  - intros k' l'. rewrite dict_get_set. destruct (decide (k' = k)) as [->|Hne].
    + intros [= <-]. left. split; [done|]. by exists l.
    + intros H. by right.
Qed.

Section GetDeps.
Variables (db : TaskDB) (ts : list string).
Hypothesis Hcanon : ∀ x, x ∈ ts → get_name db x = Ok x.


Lemma canon_get (x : string) : x ∈ ts → ∃ t, get db x = Ok t ∧ name t = x.
Proof.
  intros Hx. pose proof (Hcanon x Hx) as H. unfold get_name in H.
  destruct (get db x) as [t|]; simpl in H; [|done]. injection H as <-. by exists t.
Qed.

Lemma deps_after_in (deps : dict string (list string)) :
  deps_after db ts = Ok deps → deps_in ts deps ∧ ∀ x, x ∈ ts → x ∈ dict_keys deps.
Proof.
  unfold deps_after. intros H. split.
  - revert H. apply foldM_inv; [|split; [intros k Hk; set_solver|intros k v Hkv; done]].
    intros acc nm acc' [Hk Hv] Hnm Hf.
    destruct (canon_get nm Hnm) as (t & Ht & Hn). rewrite Ht in Hf. simpl in Hf.
    destruct (decide ("*" ∈ after t)).
    + apply bind_Ok in Hf as (l & Hl & [= <-]).
      rewrite mapM_get_name_id in Hl; [injection Hl as <-|].
      2: { intros y Hy. apply Hcanon. apply list_elem_of_filter in Hy. by destruct Hy. }
      split.
      * intros k Hk'. apply dict_keys_set in Hk' as [->|]; [by rewrite Hn|auto].
      * intros k v. rewrite dict_get_set. case_decide; [intros [= <-] x Hx|apply Hv].
        apply list_elem_of_filter in Hx. by destruct Hx.
    + apply bind_Ok in Hf as (l & Hl & [= <-]). split.
      * intros k Hk'. apply dict_keys_set in Hk' as [->|]; [by rewrite Hn|auto].
      * intros k v. rewrite dict_get_set. case_decide; [intros [= <-] x Hx|apply Hv].
        apply list_elem_of_filter in Hx. by destruct Hx.
  - assert (Hgen : ∀ l acc r, (∀ x, x ∈ l → x ∈ ts) →
      foldM (λ deps nm, t ← get db nm;
        if decide ("*" ∈ after t) then
          l ← mapM (get_name db) (filter (λ x, x ≠ name t) ts); Ok (dict_set (name t) l deps)
        else
          after_tasks ← mapM (get_name db) (after t);
          Ok (dict_set (name t) (filter (λ x, x ∈ ts) after_tasks) deps)) acc l = Ok r →
      ∀ x, x ∈ l ∨ x ∈ dict_keys acc → x ∈ dict_keys r).
    { induction l as [|y l IH]; intros acc r Hl Hf x Hx; simpl in Hf.
      - injection Hf as <-. destruct Hx as [Hx|]; [set_solver|done].
      - apply bind_Ok in Hf as (acc' & H1 & H2).
        apply (IH acc'); [intros z Hz; apply Hl; set_solver|done|].
        destruct (canon_get y) as (t & Ht & Hn); [apply Hl; left|].
        rewrite Ht in H1. simpl in H1.
        assert (Hk : ∀ z, z ∈ dict_keys acc' ↔ z = y ∨ z ∈ dict_keys acc).
        { intros z. destruct (decide ("*" ∈ after t));
            apply bind_Ok in H1 as (l' & _ & [= <-]); by rewrite dict_keys_set, Hn. }
        rewrite Hk. destruct Hx as [Hx|Hx]; [apply elem_of_cons in Hx as [->|]|]; auto. }
    intros x Hx. apply (Hgen ts [] deps); [done|exact H|by left].
Qed.
Lemma dict_append_in (k v : string) (d d' : dict string (list string)) :
  v ∈ ts → deps_in ts d → dict_append k v d = Ok d' → deps_in ts d' ∧ dict_keys d' = dict_keys d.
Proof.
  intros Hv [Hk Hd] H. destruct (dict_append_spec _ _ _ _ H) as [Hkeys Hget].
  split; [|done]. split; [by rewrite Hkeys|].
  intros k' l' Hl' x Hx. destruct (Hget k' l' Hl') as [(-> & l & Hl & ->)|(_ & Hl)].
  - apply elem_of_app in Hx as [Hx|Hx]; [by apply (Hd k l)|]. apply list_elem_of_singleton in Hx. by subst.
  - by apply (Hd k' l').
Qed.

Lemma deps_add_all_in (nm : string) (deps deps' : dict string (list string)) :
  nm ∈ ts → deps_in ts deps → deps_add_all db nm deps = Ok deps' →
  deps_in ts deps' ∧ dict_keys deps' = dict_keys deps.
Proof.
  intros Hnm Hin H. unfold deps_add_all in H. apply bind_Ok in H as (ks & _ & H).
  revert H. apply (foldM_inv (λ d, deps_in ts d ∧ dict_keys d = dict_keys deps)); [|done].
  intros acc t acc' [Hacc Hk] _ Hf. destruct (decide ("*" ∈ before t)); [by simplify_eq|].
  destruct (dict_append_in _ _ _ _ Hnm Hacc Hf) as [? ->]. done.
Qed.

Lemma process_before_in (deps deps' : dict string (list string)) :
  deps_in ts deps → process_before db ts deps = Ok deps' →
  deps_in ts deps' ∧ dict_keys deps' = dict_keys deps.
Proof.
  unfold process_before. intros Hin.
  apply (foldM_inv (λ d, deps_in ts d ∧ dict_keys d = dict_keys deps)); [|done].
  intros acc nm acc' [Hacc Hk] Hnm Hf.
  destruct (canon_get nm Hnm) as (t & Ht & Hn). rewrite Ht in Hf. simpl in Hf. revert Hf.
  apply (foldM_inv (λ d, deps_in ts d ∧ dict_keys d = dict_keys deps)); [|done].
  intros acc1 succ acc2 [Hacc1 Hk1] _ Hf. rewrite Hn in Hf.
  destruct (decide (succ = "*")).
  - destruct (deps_add_all_in _ _ _ Hnm Hacc1 Hf) as [? ->]. done.
  - apply bind_Ok in Hf as (s & _ & Hf). destruct (decide (s ∈ dict_keys acc1)); [|by simplify_eq].
    destruct (dict_append_in _ _ _ _ Hnm Hacc1 Hf) as [? ->]. done.
Qed.

Lemma get_deps_in_aux (deps : dict string (list string)) :
  get_deps db ts = Ok deps →
  (∀ k, k ∈ dict_keys deps ↔ k ∈ ts) ∧ (∀ k v, dict_get k deps = Some v → ∀ x, x ∈ v → x ∈ ts).
Proof.
  unfold get_deps. intros H. apply bind_Ok in H as (d0 & H0 & H).
  destruct (deps_after_in d0 H0) as [Hin Hall].
  destruct (process_before_in d0 deps Hin H) as [[Hk Hv] Hkeys].
  split; [|done]. intros k. split; [apply Hk|]. rewrite Hkeys. apply Hall.
Qed.
Lemma foldM_ok {A B : Type} (P : B → Prop) (f : B → A → res B) (l : list A) :
  (∀ acc x, P acc → x ∈ l → ∃ acc', f acc x = Ok acc' ∧ P acc') →
  ∀ acc, P acc → ∃ r, foldM f acc l = Ok r ∧ P r.
Proof.
  induction l as [|x l IH]; intros Hf acc HP; simpl; [by eexists|].
  destruct (Hf acc x HP) as (acc' & -> & HP'); [left|]. simpl.
  apply IH; [|done]. intros a y Ha Hy. apply Hf; [done|by right].
Qed.

Lemma dict_keys_get {V} (k : string) (d : dict string V) :
  k ∈ dict_keys d → ∃ v, dict_get k d = Some v.
Proof.
  induction d as [|[k' v'] d IH]; simpl; [set_solver|].
  unfold dict_keys; simpl. rewrite elem_of_cons. case_decide; [by eexists|].
  intros [?|Hk]; [done|by apply IH].
Qed.

Lemma mapM_get_name_ok (l : list string) :
  (∀ a, a ∈ l → ∃ t, get db a = Ok t) → ∃ r, mapM (get_name db) l = Ok r.
Proof.
  induction l as [|a l IH]; intros H; cbn [mapM]; [by eexists|].
  destruct (H a) as (t & Ht); [left|].
  assert (Hn : get_name db a = Ok (name t)) by (unfold get_name; by rewrite Ht). rewrite Hn. simpl.
  destruct IH as (r & ->); [intros b Hb; apply H; by right|]. simpl. by eexists.
Qed.

Lemma get_deps_ok_aux :
  (∀ x t a, x ∈ ts → get db x = Ok t → a ∈ after t ++ before t → a ≠ "*" → ∃ t', get db a = Ok t') →
  ∃ deps, get_deps db ts = Ok deps.
Proof.
  intros Hres. unfold get_deps.
  assert (Hd : ∃ d0, deps_after db ts = Ok d0).
  { unfold deps_after. destruct (foldM_ok (λ _, True)
      (λ deps nm, t ← get db nm;
        if decide ("*" ∈ after t) then
          l ← mapM (get_name db) (filter (λ x, x ≠ name t) ts); Ok (dict_set (name t) l deps)
        else
          after_tasks ← mapM (get_name db) (after t);
          Ok (dict_set (name t) (filter (λ x, x ∈ ts) after_tasks) deps)) ts)
      with (acc := @nil (string * list string)) as (r & Hr & _); [|done|by exists r].
    intros acc nm _ Hnm. destruct (canon_get nm Hnm) as (t & Ht & Hn). rewrite Ht. simpl.
    destruct (decide ("*" ∈ after t)).
    - rewrite mapM_get_name_id; [simpl; by eexists|].
      intros y Hy. apply list_elem_of_filter in Hy as [_ Hy]. by apply Hcanon.
    - destruct (mapM_get_name_ok (after t)) as (r & ->); [|simpl; by eexists].
      intros a Ha. apply (Hres nm t a Hnm Ht); [apply elem_of_app; by left|].
      intros ->. done. }
  destruct Hd as (d0 & Hd0).
  rewrite Hd0. simpl.
  destruct (deps_after_in d0 Hd0) as [[Hk0 _] Hall].
  unfold process_before.
  destruct (foldM_ok (λ d, dict_keys d = dict_keys d0) (λ deps nm,
      t ← get db nm;
      foldM (λ deps succ,
          if decide (succ = "*") then deps_add_all db (name t) deps
          else
            s ← get_name db succ;
            if decide (s ∈ dict_keys deps) then dict_append s (name t) deps else Ok deps)
        deps (before t)) ts) with (acc := d0) as (r & Hr & _); [|done|by exists r].
  intros acc nm Hacc Hnm. destruct (canon_get nm Hnm) as (t & Ht & Hn). rewrite Ht. simpl.
  apply (foldM_ok (λ d, dict_keys d = dict_keys d0)); [|done].
  intros acc1 succ Hacc1 Hsucc. destruct (decide (succ = "*")).
  - unfold deps_add_all.
    destruct (mapM_get_Ok db (dict_keys acc1)) as (ks & Hks).
    { intros k Hk. rewrite Hacc1 in Hk. destruct (canon_get k (Hk0 k Hk)) as (tk & Htk & _). by exists tk. }
    rewrite Hks. simpl.
    apply mapM_res_Ok in Hks.
    assert (Hks' : ∀ tk, tk ∈ ks → name tk ∈ dict_keys acc1).
    { intros tk Htk. destruct (Forall2_elem_r _ _ _ tk Hks Htk) as (k & Hk & Hgk).
      rewrite Hacc1 in Hk. destruct (canon_get k (Hk0 k Hk)) as (tk' & Htk' & Hn').
      rewrite Hgk in Htk'. injection Htk' as ->. rewrite Hn', Hacc1. done. }
    revert Hks'. generalize ks as l. intros l.
    assert (Hg : ∀ acc2, dict_keys acc2 = dict_keys d0 → (∀ tk, tk ∈ l → name tk ∈ dict_keys acc2) →
      ∃ acc', foldM (λ deps t0, if decide ("*" ∈ before t0) then Ok deps else dict_append (name t0) (name t) deps)
                acc2 l = Ok acc' ∧ dict_keys acc' = dict_keys d0).
    { induction l as [|tk l IH]; intros acc2 H2 Hl; simpl; [by eexists|].
      destruct (decide ("*" ∈ before tk)); simpl; [apply IH; [done|intros; apply Hl; by right]|].
      destruct (dict_keys_get (name tk) acc2) as (v & Hv); [apply Hl; left|].
      assert (Ha : dict_append (name tk) (name t) acc2 = Ok (dict_set (name tk) (v ++ [name t]) acc2))
        by (unfold dict_append; by rewrite Hv).
      rewrite Ha. simpl.
      assert (Hk2 : dict_keys (dict_set (name tk) (v ++ [name t]) acc2) = dict_keys acc2).
      { apply dict_keys_set_in. apply Hl. left. }
      apply IH; [by rewrite Hk2|]. intros tk' Htk'. rewrite Hk2. apply Hl. by right. }
    intros Hl. apply Hg; [done|]. intros tk Htk. by apply Hl.
  - destruct (Hres nm t succ Hnm Ht) as (ts' & Hts'); [apply elem_of_app; by right|done|].
    assert (Hn' : get_name db succ = Ok (name ts')) by (unfold get_name; by rewrite Hts').
    rewrite Hn'. simpl.
    destruct (decide (name ts' ∈ dict_keys acc1)) as [Hin|]; [|by eexists].
    destruct (dict_keys_get _ _ Hin) as (v & Hv). unfold dict_append. rewrite Hv.
    eexists; split; [done|]. rewrite dict_keys_set_in by done. done.
Qed.
End GetDeps.

(** [get_deps] over names that are each the name of the task they
    resolve to: the map has one key per name of [tasks] and every
    predecessor it lists is one of [tasks]. *)
Theorem get_deps_in (db : TaskDB) (ts : list string) (deps : dict string (list string)) :
  (∀ x, x ∈ ts → get_name db x = Ok x) →
  get_deps db ts = Ok deps →
  (∀ k, k ∈ dict_keys deps ↔ k ∈ ts) ∧ (∀ k v, dict_get k deps = Some v → ∀ x, x ∈ v → x ∈ ts).
Proof. intros Hcanon. by apply (get_deps_in_aux db ts Hcanon). Qed.

(** [get_deps] over such names raises nothing when every [after] and
    [before] entry other than ["*"] of their tasks resolves. *)
Theorem get_deps_ok (db : TaskDB) (ts : list string) :
  (∀ x, x ∈ ts → get_name db x = Ok x) →
  (∀ x t a, x ∈ ts → get db x = Ok t → a ∈ after t ++ before t → a ≠ "*" → ∃ t', get db a = Ok t') →
  ∃ deps, get_deps db ts = Ok deps.
Proof. intros Hcanon. by apply (get_deps_ok_aux db ts Hcanon). Qed.

Lemma submit_times (st : ExecState) (l : list string) :
  now (foldl submit st l) = now st ∧ starttime (foldl submit st l) = starttime st ∧
  endtime (foldl submit st l) = endtime st.
Proof.
  revert st. induction l as [|x l IH]; intros st; simpl; [done|].
  destruct (IH (submit st x)) as (-> & -> & ->). unfold submit. by case_decide.
Qed.

Lemma collect_times (st : ExecState) (l : list string) :
  now (foldl collect st l) = now st ∧ starttime (foldl collect st l) = starttime st ∧
  endtime (foldl collect st l) = endtime st.
Proof.
  revert st. induction l as [|x l IH]; intros st; simpl; [done|].
  destruct (IH (collect st x)) as (-> & -> & ->). unfold collect.
  repeat case_match; try case_decide; split_and!; reflexivity.
Qed.

Lemma time_inv_step (db : TaskDB) (deps : dict string (list string)) (st st' : ExecState) :
  step db deps st st' →
  (∀ x t, starttime st !! x = Some t → t ≤ now st) →
  (∀ x te, endtime st !! x = Some te → ∃ ts, starttime st !! x = Some ts ∧ ts ≤ te) →
  (∀ x t, starttime st' !! x = Some t → t ≤ now st') ∧
  (∀ x te, endtime st' !! x = Some te → ∃ ts, starttime st' !! x = Some ts ∧ ts ≤ te).
Proof.
  assert (Hsame : ∀ st st', now st' = now st → starttime st' = starttime st → endtime st' = endtime st →
    (∀ x t, starttime st !! x = Some t → t ≤ now st) →
    (∀ x te, endtime st !! x = Some te → ∃ ts, starttime st !! x = Some ts ∧ ts ≤ te) →
    (∀ x t, starttime st' !! x = Some t → t ≤ now st') ∧
    (∀ x te, endtime st' !! x = Some te → ∃ ts, starttime st' !! x = Some ts ∧ ts ≤ te)).
  { intros ? ? -> -> ->. done. }
  intros Hs H1 H2. destruct Hs as [st Hpc Hac|st Hpc Hnac|st Hpc|st Hpc Hw|st f Hf Hn|st f o Hs Hn|st k].
  - by apply (Hsame st).
  - by apply (Hsame st).
  - unfold main_top. destruct (is_active deps st); [|by apply (Hsame st)].
    destruct (mapM (get_name db) (get_ready deps st)) as [names|e]; [|by apply (Hsame st)].
    match goal with |- context [foldl submit ?s0 names] =>
      destruct (submit_times s0 names) as (Ha & Hb & Hc) end.
    apply (Hsame st); [rewrite Ha|rewrite Hb|rewrite Hc|..]; done.
  - unfold main_collect. cbv zeta.
    destruct (collect_times st (filter (λ f, is_Some (result st !! f)) (futures st))) as (Ha & Hb & Hc).
    destruct (es_pc (foldl collect st _)); apply (Hsame st); simpl; done.
  - simpl. split.
    + intros x t. destruct (decide (x = f)) as [->|Hne].
      * rewrite lookup_insert_eq. intros [= <-]. done.
      * rewrite lookup_insert_ne by congruence. apply H1.
    + intros x te Hte. destruct (H2 x te Hte) as (ts & Hts & Hle).
      destruct (decide (x = f)) as [->|Hne]; [congruence|].
      rewrite lookup_insert_ne by congruence. by exists ts.
  - simpl. split; [done|].
    intros x te. destruct (decide (x = f)) as [->|Hne].
    + rewrite lookup_insert_eq. intros [= <-]. destruct Hs as [ts Hts]. exists ts. split; [done|].
      by apply (H1 f).
    + rewrite lookup_insert_ne by congruence. apply H2.
  - simpl. split; [|done]. intros x t Ht. specialize (H1 x t Ht). lia.
Qed.

Lemma time_inv_reachable (db : TaskDB) (deps : dict string (list string)) (e0 : nat) (st : ExecState) :
  reachable db deps e0 st →
  (∀ x t, starttime st !! x = Some t → t ≤ now st) ∧
  (∀ x te, endtime st !! x = Some te → ∃ ts, starttime st !! x = Some ts ∧ ts ≤ te).
Proof.
  unfold reachable. revert st. apply rtc_ind_r.
  - split; intros x t H; simpl in H; by rewrite lookup_empty in H.
  - intros st st' _ Hs [H1 H2]. by apply (time_inv_step db deps st st').
Qed.

(** [Modprobe.run] hands each task to the pool at most once, and only
    nodes of the graph. *)
Theorem run_submits_once (db : TaskDB) (deps : dict string (list string)) (e0 : nat) (st : ExecState) :
  (∀ x, x ∈ nodes deps → get_name db x = Ok x) →
  reachable db deps e0 st →
  NoDup (started st) ∧
  ∀ x, x ∈ started st → x ∈ nodes deps ∧ ∀ p, p ∈ preds deps x → p ∈ finished st.
Proof.
  intros Hid Hr. pose proof (run_inv_reachable db deps e0 st Hid Hr) as Hi.
  rewrite (inv_started _ _ _ Hi). split; [apply (inv_passed_nodup _ _ _ Hi)|].
  intros x Hx. split; [by apply (inv_passed_nodes _ _ _ Hi)|].
  intros p Hp. by apply (inv_passed_preds _ _ _ Hi x p).
Qed.

(** At the end of [Modprobe.run], every node of the graph has a
    [starttime], an [endtime] no earlier than it, and a result. *)
Theorem run_done_all_timed (db : TaskDB) (deps : dict string (list string)) (e0 : nat) (st : ExecState) :
  (∀ x, x ∈ nodes deps → get_name db x = Ok x) →
  reachable db deps e0 st → es_pc st = PDone →
  ∀ x, x ∈ nodes deps → x ∈ started st ∧ x ∈ finished st ∧
    ∃ ts te o, starttime st !! x = Some ts ∧ endtime st !! x = Some te ∧ ts ≤ te ∧
               result st !! x = Some o.
Proof.
  intros Hid Hr Hpc x Hx. pose proof (run_inv_reachable db deps e0 st Hid Hr) as Hi.
  destruct (time_inv_reachable db deps e0 st Hr) as [_ Ht].
  pose proof (run_inv_done_all deps e0 st Hi Hpc x Hx) as Hf.
  split; [rewrite (inv_started _ _ _ Hi); by apply (inv_finished_passed _ _ _ Hi)|].
  split; [done|].
  destruct (inv_finished_result _ _ _ Hi x Hf) as [o Ho].
  destruct (proj1 (inv_result_end _ _ _ Hi x) (ltac:(by eexists))) as [te Hte].
  destruct (Ht x te Hte) as (ts & Hts & Hle). by exists ts, te, o.
Qed.

Lemma servicemap_entry (n s : string) (l : list string) (m : dict string string) :
  dict_get s (foldl (λ m s', dict_set s' n m) m l) = if decide (s ∈ l) then Some n else dict_get s m.
Proof.
  revert m. induction l as [|a l IH]; intros m; cbn [foldl].
  - case_decide; [set_solver|done].
  - rewrite IH, dict_get_set.
    destruct (decide (s ∈ l)); [case_decide; [done|set_solver]|].
    destruct (decide (s = a)) as [->|Hne]; case_decide; set_solver.
Qed.

(** [ModuleList.lookup(s)] is the name of the last entry of the
    [module.list] response whose services list [s], [None] if there is
    none. *)
Theorem lookup_last_entry (ml : ModuleList) (s : string) :
  lookup ml s = last (map fst (filter (λ e, s ∈ e.2) ml)).
Proof.
  unfold lookup, servicemap.
  assert (Hgen : ∀ (m : dict string string),
    dict_get s (foldl (λ m e, foldl (λ m s, dict_set s e.1 m) m e.2) m ml) =
    match last (map fst (filter (λ e, s ∈ e.2) ml)) with Some n => Some n | None => dict_get s m end).
  { induction ml as [|[n l] ml IH]; intros m; cbn [foldl fst snd]; [done|].
    rewrite IH, servicemap_entry. rewrite (list.filter_cons (λ e : string * list string, s ∈ e.2)). cbn [fst snd].
    destruct (decide (s ∈ l)); cbn [map]; [|done].
    rewrite last_cons. destruct (last _); reflexivity. }
  rewrite Hgen. by destruct (last _).
Qed.

(** [solve_modules_remove] checks the named modules in order and raises
    NotLoaded for the first one whose lookup is [None] or empty, before
    any other work. *)
Theorem solve_modules_remove_not_loaded (db : TaskDB) (ml : ModuleList) (pre post : list string) (m : string) :
  (∀ x, x ∈ pre → ∃ s, lookup ml x = Some s ∧ s ≠ "") →
  (lookup ml m = None ∨ lookup ml m = Some "") →
  solve_modules_remove db ml (pre ++ m :: post) = Err (NotLoaded m).
Proof.
  intros Hpre Hm. unfold solve_modules_remove, removal_list.
  assert (Hc : loaded_check ml (pre ++ m :: post) = Err (NotLoaded m)).
  { induction pre as [|x pre IH]; simpl.
    - by destruct Hm as [->| ->].
    - destruct (Hpre x) as (s & -> & Hs); [left|]. rewrite decide_False by done.
      apply IH. intros y Hy. apply Hpre. by right. }
  destruct (pre ++ m :: post) eqn:E; [by destruct pre|]. by rewrite Hc.
Qed.

(** The result of [solve_modules_remove]: the task names have no
    duplicates and are loaded modules, the map has exactly these names as
    keys, and each of its sets holds only these names. *)
Theorem solve_modules_remove_result (db : TaskDB) (ml : ModuleList) (modules ts : list string)
    (d : dict string (gset string)) :
  solve_modules_remove db ml modules = Ok (ts, d) →
  NoDup ts ∧ (∀ n, n ∈ ts → n ∈ loaded_modules ml) ∧ dict_keys d = ts ∧
  ∀ n v, dict_get n d = Some v → v ⊆ list_to_set ts.
Proof.
  unfold solve_modules_remove. intros H.
  apply bind_Ok in H as (mods0 & _ & H). apply bind_Ok in H as (deps & _ & H).
  apply bind_Ok in H as (st & _ & H). apply bind_Ok in H as (u & _ & H).
  injection H as <- <-.
  set (rt := foldl (λ s svc, match lookup ml svc with Some n => {[n]} ∪ s | None => s end) ∅ (mods st)).
  assert (Hrt : ∀ n, n ∈ rt → n ∈ loaded_modules ml).
  { subst rt. generalize (mods st) as l. intros l.
    assert (Hg : ∀ (acc : gset string), (∀ n, n ∈ acc → n ∈ loaded_modules ml) →
      ∀ n, n ∈ foldl (λ s svc, match lookup ml svc with Some n => {[n]} ∪ s | None => s end) acc l →
      n ∈ loaded_modules ml).
    { induction l as [|x l IH]; intros acc Hacc; simpl; [done|]. apply IH.
      destruct (lookup ml x) as [s|] eqn:Hx; [|done].
      intros n Hn. apply elem_of_union in Hn as [Hn|Hn]; [|by apply Hacc].
      apply elem_of_singleton in Hn as ->. by apply (lookup_loaded ml x). }
    apply Hg. intros n Hn. set_solver. }
  split; [apply NoDup_elements|]. split; [intros n Hn; apply Hrt; by apply elem_of_elements|].
  split.
  - unfold dict_keys. rewrite map_map. simpl. apply map_id.
  - intros n v Hv. apply dict_get_elem, list_elem_of_fmap in Hv as (n' & [= <- ->] & _).
    intros x Hx. apply elem_of_filter in Hx as [Hx _]. apply elem_of_list_to_set, elem_of_elements, Hx.
Qed.

(** *** Witnesses *)

Lemma solve_sound_witness :
  solved_ref Scenario.ctx_all Scenario.db_shadow ["a"] "x".
Proof.
  apply (solve_sound Scenario.ctx_all Scenario.db_shadow ["a"] (list_to_set ["a"; "x"; "b"])).
  - vm_compute. reflexivity.
  - apply (bool_decide_unpack _). vm_compute. exact I.
Defined.

Lemma solve_seeds_resolve_witness :
  ∃ t, get Scenario.db_shadow "a" = Ok t.
Proof.
  apply (solve_seeds_resolve Scenario.ctx_all Scenario.db_shadow ["a"] (list_to_set ["a"; "x"; "b"])).
  - vm_compute. reflexivity.
  - left.
Defined.

Lemma add_task_then_get_witness :
  get (add_task Scenario.ssd Scenario.db_store) "store" = Ok Scenario.ssd ∧
  get (add_task Scenario.ssd Scenario.db_store) "mem" = Ok Scenario.mem.
Proof.
  destruct (add_task_then_get Scenario.ssd Scenario.db_store (db_of_wf _)) as (_ & Hp & Hs).
  split; [apply Hp; left|]. rewrite Hs; [vm_compute; reflexivity|].
  apply (bool_decide_unpack _). vm_compute. exact I.
Defined.

Lemma set_alternative_reorders_witness :
  default [] (tasks (match set_alternative Scenario.db_store "store" (Some "mem") with
                     | Ok d => d | Err _ => Scenario.db_store end) !! "store") ≡ₚ
  default [] (tasks Scenario.db_store !! "store").
Proof.
  apply (set_alternative_reorders Scenario.db_store _ "store" "mem").
  vm_compute. reflexivity.
Defined.

Lemma active_tasks_spec_witness :
  ["a"] `sublist_of` ["a"; "b"].
Proof.
  apply (active_tasks_spec Scenario.mp_needs (mkModprobe Scenario.db_needs ["a"] Scenario.ctx_all) ["a"]).
  vm_compute. reflexivity.
Defined.

Lemma s5_names (x : string) :
  x ∈ ["content-backing"; "content"; "kvs"] → get_name Scenario.db_s5_after x = Ok x.
Proof.
  intros Hx. repeat (apply elem_of_cons in Hx as [->|Hx]; [vm_compute; reflexivity|]).
  by apply not_elem_of_nil in Hx.
Qed.

Lemma get_deps_in_witness :
  "kvs" ∈ dict_keys (match get_deps Scenario.db_s5_after ["content-backing"; "content"; "kvs"] with
                     | Ok d => d | Err _ => [] end).
Proof.
  apply (proj1 (get_deps_in Scenario.db_s5_after ["content-backing"; "content"; "kvs"] _ s5_names
                  (ltac:(vm_compute; reflexivity))) "kvs").
  right. right. left.
Defined.

Lemma get_deps_ok_witness :
  ∃ deps, get_deps Scenario.db_s5_after ["content-backing"; "content"; "kvs"] = Ok deps.
Proof.
  apply (get_deps_ok Scenario.db_s5_after ["content-backing"; "content"; "kvs"] s5_names).
  intros x t a Hx.
  repeat (apply elem_of_cons in Hx as [->|Hx];
    [vm_compute; intros [= <-] Ha _;
     repeat (apply elem_of_cons in Ha as [->|Ha]; [eexists; vm_compute; reflexivity|]);
     by apply not_elem_of_nil in Ha|]).
  by apply not_elem_of_nil in Hx.
Defined.

Lemma run_submits_once_witness :
  NoDup (started (Scenario.chain_done Success)).
Proof.
  apply (run_submits_once Scenario.db_chain Scenario.deps_chain 0 (Scenario.chain_done Success)
           deps_chain_names (proj1 (chain_done_reachable Success eq_refl))).
Defined.

Lemma run_done_all_timed_witness :
  ∃ ts te o, starttime (Scenario.chain_done Success) !! "b" = Some ts ∧
    endtime (Scenario.chain_done Success) !! "b" = Some te ∧ ts ≤ te ∧
    result (Scenario.chain_done Success) !! "b" = Some o.
Proof.
  apply (run_done_all_timed Scenario.db_chain Scenario.deps_chain 0 (Scenario.chain_done Success)
           deps_chain_names (proj1 (chain_done_reachable Success eq_refl)) (proj2 (chain_done_reachable Success eq_refl))).
  vm_compute. left.
Defined.

Lemma solve_modules_remove_not_loaded_witness :
  solve_modules_remove Scenario.db_s5 Scenario.ml_s5 ["kvs"; "job-manager"; "content"]
    = Err (NotLoaded "job-manager").
Proof.
  apply (solve_modules_remove_not_loaded Scenario.db_s5 Scenario.ml_s5 ["kvs"] ["content"] "job-manager").
  - intros x Hx. apply list_elem_of_singleton in Hx as ->. exists "kvs". split; [vm_compute; reflexivity|done].
  - left. vm_compute. reflexivity.
Defined.

Lemma solve_modules_remove_result_witness :
  NoDup ["kvs"] ∧ dict_keys [("kvs", ∅ : gset string)] = ["kvs"].
Proof.
  destruct (solve_modules_remove_result Scenario.db_s5 Scenario.ml_s5 ["kvs"] ["kvs"] [("kvs", ∅)])
    as (Hnd & _ & Hk & _).
  - vm_compute. reflexivity.
  - by split.
Defined.
